(** * The workflow execution engine (api/services/workflow/executor.go)

    A shallow embedding of the executor: the graph walk of [Execute], the
    per-node behaviours it dispatches to, coordinate resolution and edge
    resolution, followed by the properties the specification states about
    them.

    Go values of static type [interface{}] are a tagged union, Go maps are
    references into a store of finite maps, [float64] is the binary64 type of
    the kernel, and [time.Now] reads a clock that advances with every call.

    The source holds executor.go in two texts. They differ in one point:
    the first (lines 1 to 376) runs the behaviours on the [inputs] map it
    is given, the second (lines 378 to 727) on a map [vars] of its own that
    it fills from [inputs]. Both are embedded, as [Execute] and
    [ExecuteCopy]; everything else is shared. *)

From Stdlib Require Import ZArith Floats DecimalString.
From stdpp Require Import gmap strings list fin_maps relations.

Set Warnings "-register-all,-inexact-float".

Local Open Scope string_scope.
Local Open Scope list_scope.

(** ** Dynamically typed values *)

(** What an [interface{}] can hold here: the results of decoding JSON
    ([nil], [bool], [float64], [string], [[]interface{}],
    [map[string]interface{}]) and Go's [int], which the unit tests and the
    condition behaviour know about. *)
Inductive Value :=
  | VNil
  | VBool (b : bool)
  | VFloat (f : float)
  | VInt (z : Z)
  | VString (s : string)
  | VList (l : list Value)
  | VMap (m : gmap string Value).

(** The type assertions [v.(string)], [v.(float64)], [v.(bool)], [v.(int)],
    [v.([]interface{})] and [v.(map[string]interface{})]; the [option] is
    the [ok] of the two-value form. *)
Definition as_string (v : Value) : option string :=
  match v with VString s => Some s | _ => None end.
Definition as_float64 (v : Value) : option float :=
  match v with VFloat f => Some f | _ => None end.
Definition as_bool (v : Value) : option bool :=
  match v with VBool b => Some b | _ => None end.
Definition as_int (v : Value) : option Z :=
  match v with VInt z => Some z | _ => None end.
Definition as_slice (v : Value) : option (list Value) :=
  match v with VList l => Some l | _ => None end.
Definition as_map (v : Value) : option (gmap string Value) :=
  match v with VMap m => Some m | _ => None end.

(** The index expression [m[k]] in its one-value form: a missing key reads
    as the zero value of [interface{}], the nil interface. The two-value
    form [v, exists := m[k]] is the lookup [m !! k] itself. *)
Definition index (m : gmap string Value) (k : string) : Value :=
  default VNil (m !! k).

(** [float64(thresholdInt)]: conversion of an integer, rounding to the
    nearest binary64 value, ties to even. *)
Definition float64_of_int (z : Z) : float :=
  SF2Prim (binary_normalize prec emax z 0 false).

(** ** Text formatting *)

Definition dec (n : Z) : string := NilZero.string_of_uint (N.to_uint (Z.to_N n)).

Definition pad2 (n : Z) : string :=
  if (n <? 10)%Z then "0" +:+ dec n else dec n.

Definition pad4 (n : Z) : string :=
  if (n <? 10)%Z then "000" +:+ dec n
  else if (n <? 100)%Z then "00" +:+ dec n
  else if (n <? 1000)%Z then "0" +:+ dec n
  else dec n.

(** Division of [n] by [d] rounded to the nearest integer, ties to even. *)
Definition round_half_even (n d : Z) : Z :=
  let q := (n / d)%Z in
  let r := (n mod d)%Z in
  if (d <? 2 * r)%Z then (q + 1)%Z
  else if (2 * r =? d)%Z then (if Z.even q then q else (q + 1)%Z)
  else q.

(** The verb [%.1f] of [fmt.Sprintf] on a [float64]: the exact value
    rounded to one decimal. *)
Definition fmt_f1 (f : float) : string :=
  match Prim2SF f with
  | S754_nan => "NaN"
  | S754_infinity s => if s then "-Inf" else "+Inf"
  | S754_zero s => (if s then "-" else "") +:+ "0.0"
  | S754_finite s m e =>
      let n := (Z.pos m * 10)%Z in
      let tenths :=
        if (0 <=? e)%Z then (n * 2 ^ e)%Z else round_half_even n (2 ^ (- e)) in
      (if s then "-" else "") +:+ dec (tenths / 10) +:+ "." +:+ dec (tenths mod 10)
  end.

(** A reading of the wall clock; [zone] is the offset east of UTC in
    minutes. *)
Record Time := mkTime {
  year : Z; month : Z; day : Z;
  hour : Z; minute : Z; second : Z;
  zone : Z
}.

(** [t.Format(time.RFC3339)], layout [2006-01-02T15:04:05Z07:00]. *)
Definition format_RFC3339 (t : Time) : string :=
  pad4 (year t) +:+ "-" +:+ pad2 (month t) +:+ "-" +:+ pad2 (day t) +:+ "T"
  +:+ pad2 (hour t) +:+ ":" +:+ pad2 (minute t) +:+ ":" +:+ pad2 (second t)
  +:+ (if (zone t =? 0)%Z then "Z"
       else (if (zone t <? 0)%Z then "-" else "+")
            +:+ pad2 (Z.abs (zone t) / 60) +:+ ":" +:+ pad2 (Z.abs (zone t) mod 60)).

(** [t.Format("20060102150405")]. *)
Definition format_stamp (t : Time) : string :=
  pad4 (year t) +:+ pad2 (month t) +:+ pad2 (day t)
  +:+ pad2 (hour t) +:+ pad2 (minute t) +:+ pad2 (second t).

(** ** The data model (types.go) *)

Module Position.
Record t := mk { X : float; Y : float }.
End Position.

Module NodeData.
Record t := mk {
  Label : string;
  Description : string;
  Metadata : gmap string Value
}.
End NodeData.

Module Node.
Record t := mk {
  ID : string;
  Type_ : string;
  Position : Position.t;
  Data : NodeData.t
}.
End Node.

Module Edge.
Record t := mk {
  ID : string;
  Source : string;
  Target : string;
  Type_ : string;
  Animated : bool;
  Style : gmap string Value;
  Label : string;
  LabelStyle : gmap string Value;
  SourceHandle : string
}.
End Edge.

Module WorkflowGraph.
Record t := mk {
  ID : string;
  Nodes : list Node.t;
  Edges : list Edge.t
}.
End WorkflowGraph.

(** [Workflow]: the stored document. Its name and the two database
    timestamps play no part in an execution and are left out. *)
Module Workflow.
Record t := mk {
  ID : string;
  Definition_ : WorkflowGraph.t
}.
End Workflow.

(** [Output] is [None] for Go's nil map (the field then disappears from the
    JSON document, as does an empty [Error]). *)
Module ExecutionStep.
Record t := mk {
  NodeID : string;
  Type_ : string;
  Label : string;
  Description : string;
  Status : string;
  Output : option (gmap string Value);
  Error : string
}.

Definition set_Output (o : gmap string Value) (s : t) : t :=
  mk (NodeID s) (Type_ s) (Label s) (Description s) (Status s) (Some o) (Error s).

(** [step.Status = "failed"; step.Error = err.Error()] *)
Definition fail (err : string) (s : t) : t :=
  mk (NodeID s) (Type_ s) (Label s) (Description s) "failed" (Output s) err.
End ExecutionStep.

Module ExecutionResponse.
Record t := mk {
  ExecutedAt : string;
  Status : string;
  Steps : list ExecutionStep.t
}.
End ExecutionResponse.

(** ** The store and the clock *)

(** A Go map is a reference: [heap] holds the maps that exist, and a map
    value is an index into it. The callers of the executor pass maps they
    have made, so the nil map is not modelled; [env_at] gives the contents
    of a live map. [ticks] counts the calls of [time.Now] so far. *)
Abbreviation loc := nat.

Record World := mkWorld {
  heap : list (gmap string Value);
  ticks : nat
}.

Definition env_at (w : World) (m : loc) : gmap string Value :=
  default ∅ (heap w !! m).

Definition M (A : Type) : Type := World → A * World.

#[global] Instance M_ret : MRet M := λ A a w, (a, w).
#[global] Instance M_bind : MBind M :=
  λ A B f m w, let '(a, w') := m w in f a w'.

(** [m[k]] *)
Definition map_index (m : loc) (k : string) : M Value :=
  λ w, (index (env_at w m) k, w).

(** [v, exists := m[k]] *)
Definition map_lookup (m : loc) (k : string) : M (option Value) :=
  λ w, (env_at w m !! k, w).

(** [m[k] = v] *)
Definition map_assign (m : loc) (k : string) (v : Value) : M unit :=
  λ w, (tt, mkWorld (alter (<[k := v]>) m (heap w)) (ticks w)).

(** [make(map[string]interface{})] *)
Definition make_map : M loc :=
  λ w, (length (heap w), mkWorld (heap w ++ [∅]) (ticks w)).

(** The current contents of a map, for code that only reads it. *)
Definition map_snapshot (m : loc) : M (gmap string Value) :=
  λ w, (env_at w m, w).

(** ** Functions that do not touch the store (executor.go) *)

Fixpoint findNodeByType (nodes : list Node.t) (nodeType : string) : option Node.t :=
  match nodes with
  | [] => None
  | n :: rest =>
      if String.eqb (Node.Type_ n) nodeType then Some n
      else findNodeByType rest nodeType
  end.

(** Edge resolution. The map is only read, so the function takes its
    contents; the empty string is the "no next node" result. *)
Fixpoint findNextNodeID (edges : list Edge.t) (currentNodeID : string)
    (vars : gmap string Value) : string :=
  match edges with
  | [] => ""
  | edge :: rest =>
      if String.eqb (Edge.Source edge) currentNodeID then
        if negb (String.eqb (Edge.SourceHandle edge) "") then
          match as_bool (index vars "conditionMet") with
          | Some conditionMet =>
              if (String.eqb (Edge.SourceHandle edge) "true" && conditionMet)
                 || (String.eqb (Edge.SourceHandle edge) "false" && negb conditionMet)
              then Edge.Target edge
              else findNextNodeID rest currentNodeID vars
          | None => findNextNodeID rest currentNodeID vars
          end
        else Edge.Target edge
      else findNextNodeID rest currentNodeID vars
  end.

(** The loop of [getCityCoordinates] over the options of the node. *)
Fixpoint scanCityOptions (options : list Value) (city : string) : float * float :=
  match options with
  | [] => (0%float, 0%float)
  | option :: rest =>
      match as_map option with
      | Some cityData =>
          match as_string (index cityData "city") with
          | Some cityName =>
              if String.eqb cityName city then
                match as_float64 (index cityData "lat") with
                | Some lat =>
                    match as_float64 (index cityData "lon") with
                    | Some lon => (lat, lon)
                    | None => scanCityOptions rest city
                    end
                | None => scanCityOptions rest city
                end
              else scanCityOptions rest city
          | None => scanCityOptions rest city
          end
      | None => scanCityOptions rest city
      end
  end.

Definition getCityCoordinates (node : Node.t) (city : string) : float * float :=
  let metadata := NodeData.Metadata (Node.Data node) in
  match as_slice (index metadata "options") with
  | None => (0%float, 0%float)
  | Some options => scanCityOptions options city
  end.

(** The comparison selected by the [switch] of [processConditionNode]. *)
Definition applyOperator (operator : string) (temperature threshold : float) : bool :=
  if String.eqb operator "greater_than" then PrimFloat.ltb threshold temperature
  else if String.eqb operator "less_than" then PrimFloat.ltb temperature threshold
  else if String.eqb operator "equals" then PrimFloat.eqb temperature threshold
  else if String.eqb operator "greater_than_or_equal" then PrimFloat.leb threshold temperature
  else if String.eqb operator "less_than_or_equal" then PrimFloat.leb temperature threshold
  else PrimFloat.ltb threshold temperature.

Definition conditionMessage (temperature : float) (operator : string)
    (threshold : float) (conditionMet : bool) : string :=
  "Temperature " +:+ fmt_f1 temperature +:+ "°C " +:+ operator +:+ " "
  +:+ fmt_f1 threshold +:+ "°C - condition "
  +:+ (if conditionMet then "met" else "not met").

(** ** The executor *)

Section Executor.

(** [now k] is what the [k]-th call of [time.Now] returns. *)
Variable now : nat → Time.

(** [fetchWeather]: the HTTP request to the forecast service, taken as a
    function of the coordinates. Its error covers a transport failure, a
    cancelled or timed-out context, a status other than 200 and an
    undecodable body. *)
Variable fetchWeather : float → float → float + string.

Definition time_Now : M Time :=
  λ w, (now (ticks w), mkWorld (heap w) (S (ticks w))).

(** The loop of [processFormNode] over the declared field names. *)
Fixpoint copyInputFields (inputFields : list Value) (vars : loc)
    (output : gmap string Value) : M (gmap string Value + string) :=
  match inputFields with
  | [] => mret (inl output)
  | field :: rest =>
      match as_string field with
      | None => copyInputFields rest vars output
      | Some fieldName =>
          value ← map_lookup vars fieldName;
          match value with
          | Some value => copyInputFields rest vars (<[fieldName := value]> output)
          | None => mret (inr ("missing required input field: " +:+ fieldName))
          end
      end
  end.

(** The behaviours receive the step by reference and return an [error];
    here they return the step and the error message, [None] for [nil]. *)
Definition processFormNode (node : Node.t) (vars : loc) (step : ExecutionStep.t)
    : M (ExecutionStep.t * option string) :=
  let metadata := NodeData.Metadata (Node.Data node) in
  match as_slice (index metadata "inputFields") with
  | None => mret (step, Some "invalid inputFields in form node metadata")
  | Some inputFields =>
      r ← copyInputFields inputFields vars ∅;
      match r with
      | inr err => mret (step, Some err)
      | inl output => mret (ExecutionStep.set_Output output step, None)
      end
  end.

Definition processIntegrationNode (node : Node.t) (vars : loc)
    (step : ExecutionStep.t) : M (ExecutionStep.t * option string) :=
  v ← map_index vars "city";
  match as_string v with
  | None => mret (step, Some "city not found in variables")
  | Some city =>
      let '(lat, lon) := getCityCoordinates node city in
      if PrimFloat.eqb lat 0 && PrimFloat.eqb lon 0 then
        mret (step, Some ("coordinates not found for city: " +:+ city))
      else
        match fetchWeather lat lon with
        | inr err => mret (step, Some ("failed to fetch weather data: " +:+ err))
        | inl temperature =>
            map_assign vars "temperature" (VFloat temperature);;
            mret (ExecutionStep.set_Output
                    (<["temperature" := VFloat temperature]>
                       (<["location" := VString city]> ∅)) step, None)
        end
  end.

(** The two assertions on [vars["threshold"]]: [float64] first, then [int]. *)
Definition thresholdOf (v : Value) : option float :=
  match as_float64 v with
  | Some threshold => Some threshold
  | None =>
      match as_int v with
      | Some thresholdInt => Some (float64_of_int thresholdInt)
      | None => None
      end
  end.

Definition processConditionNode (vars : loc) (step : ExecutionStep.t)
    : M (ExecutionStep.t * option string) :=
  v ← map_index vars "temperature";
  match as_float64 v with
  | None => mret (step, Some "temperature not found in variables")
  | Some temperature =>
      v ← map_index vars "threshold";
      match thresholdOf v with
      | None => mret (step, Some "threshold not found in variables")
      | Some threshold =>
          v ← map_index vars "operator";
          let operator := default "greater_than" (as_string v) in
          let conditionMet := applyOperator operator temperature threshold in
          map_assign vars "conditionMet" (VBool conditionMet);;
          mret (ExecutionStep.set_Output
                  (<["conditionMet" := VBool conditionMet]>
                     (<["threshold" := VFloat threshold]>
                        (<["operator" := VString operator]>
                           (<["actualValue" := VFloat temperature]>
                              (<["message" := VString (conditionMessage temperature
                                                         operator threshold conditionMet)]>
                                 ∅))))) step, None)
      end
  end.

Definition processEmailNode (vars : loc) (step : ExecutionStep.t)
    : M (ExecutionStep.t * option string) :=
  v ← map_index vars "conditionMet";
  match as_bool v with
  | Some true =>
      v ← map_index vars "city";
      match as_string v with
      | None => mret (step, Some "city not found in variables")
      | Some city =>
          v ← map_index vars "temperature";
          match as_float64 v with
          | None => mret (step, Some "temperature not found in variables")
          | Some temperature =>
              v ← map_index vars "email";
              match as_string v with
              | None => mret (step, Some "email not found in variables")
              | Some email =>
                  t1 ← time_Now;
                  let emailDraft : gmap string Value :=
                    <["to" := VString email]>
                      (<["from" := VString "weather-alerts@example.com"]>
                         (<["subject" := VString "Weather Alert"]>
                            (<["body" := VString ("Weather alert for " +:+ city
                                                  +:+ "! Temperature is "
                                                  +:+ fmt_f1 temperature +:+ "°C!")]>
                               (<["timestamp" := VString (format_RFC3339 t1)]> ∅)))) in
                  t2 ← time_Now;
                  mret (ExecutionStep.set_Output
                          (<["emailDraft" := VMap emailDraft]>
                             (<["deliveryStatus" := VString "sent"]>
                                (<["messageId" := VString ("msg_" +:+ format_stamp t2)]>
                                   (<["emailSent" := VBool true]> ∅)))) step, None)
              end
          end
      end
  | _ =>
      mret (ExecutionStep.set_Output
              (<["emailSent" := VBool false]>
                 (<["message" := VString "Condition not met, no email sent"]> ∅))
              step, None)
  end.

(** What the [if err := ...; err != nil] of every case does with the result
    of a behaviour. *)
Definition recordError (status : string) (r : ExecutionStep.t * option string)
    : ExecutionStep.t * string :=
  match r.2 with
  | Some err => (ExecutionStep.fail err r.1, "failed")
  | None => (r.1, status)
  end.

(** The [switch current.Type] of the loop: the step and the overall status
    after it. *)
Definition dispatch (current : Node.t) (vars : loc) (step : ExecutionStep.t)
    (status : string) : M (ExecutionStep.t * string) :=
  let type := Node.Type_ current in
  if String.eqb type "start" then mret (step, status)
  else if String.eqb type "form" then
    r ← processFormNode current vars step; mret (recordError status r)
  else if String.eqb type "integration" then
    r ← processIntegrationNode current vars step; mret (recordError status r)
  else if String.eqb type "condition" then
    r ← processConditionNode vars step; mret (recordError status r)
  else if String.eqb type "email" then
    r ← processEmailNode vars step; mret (recordError status r)
  else if String.eqb type "end" then mret (step, status)
  else mret (ExecutionStep.fail ("Unknown node type: " +:+ type) step, "failed").

(** [nodeMap]: a later node replaces an earlier one with the same id. *)
Definition buildNodeMap (nodes : list Node.t) : gmap string Node.t :=
  foldl (λ nodeMap n, <[Node.ID n := n]> nodeMap) ∅ nodes.

Definition newStep (current : Node.t) : ExecutionStep.t :=
  ExecutionStep.mk (Node.ID current) (Node.Type_ current)
    (NodeData.Label (Node.Data current)) (NodeData.Description (Node.Data current))
    "completed" None "".

(** [&ExecutionResponse{ExecutedAt: time.Now().Format(time.RFC3339), ...}] *)
Definition respond (status : string) (steps : list ExecutionStep.t)
    : M ExecutionResponse.t :=
  t ← time_Now;
  mret (ExecutionResponse.mk (format_RFC3339 t) status steps).

(** The three ways out of one iteration of [for current != nil]: the
    [return] after a failed step, a [break], or the next iteration. *)
Inductive Iteration :=
  | Return (r : ExecutionResponse.t)
  | Break (status : string) (steps : list ExecutionStep.t)
  | Next (current : Node.t) (status : string) (steps : list ExecutionStep.t).

Definition loopBody (wf : Workflow.t) (nodeMap : gmap string Node.t) (vars : loc)
    (current : Node.t) (status : string) (steps : list ExecutionStep.t)
    : M Iteration :=
  '(step, status) ← dispatch current vars (newStep current) status;
  let steps := steps ++ [step] in
  if String.eqb (ExecutionStep.Status step) "failed" then
    r ← respond status steps; mret (Return r)
  else
    env ← map_snapshot vars;
    let nextID :=
      findNextNodeID (WorkflowGraph.Edges (Workflow.Definition_ wf)) (Node.ID current) env in
    if String.eqb nextID "" then mret (Break status steps)
    else
      match nodeMap !! nextID with
      | None => mret (Break status steps)
      | Some nextNode => mret (Next nextNode status steps)
      end.

(** The loop and the [return] that follows it. The loop of the source has
    no bound: on a graph with a cycle it may run for ever. [fuel] bounds the
    number of iterations, and [None] says that the call has not returned
    within it. *)
Fixpoint walk (fuel : nat) (wf : Workflow.t) (nodeMap : gmap string Node.t)
    (vars : loc) (current : Node.t) (status : string)
    (steps : list ExecutionStep.t) : M (option ExecutionResponse.t) :=
  match fuel with
  | O => mret None
  | S fuel =>
      it ← loopBody wf nodeMap vars current status steps;
      match it with
      | Return r => mret (Some r)
      | Break status steps => r ← respond status steps; mret (Some r)
      | Next nextNode status steps => walk fuel wf nodeMap vars nextNode status steps
      end
  end.

Definition noStartStep : ExecutionStep.t :=
  ExecutionStep.mk "system" "system" "System Error" "" "failed" None
    "No start node found in workflow".

(** [Execute] from its declaration of [status] on; [vars] is the map the
    behaviours work on. *)
Definition run (fuel : nat) (wf : Workflow.t) (vars : loc)
    : M (option ExecutionResponse.t) :=
  let steps := [] in
  let status := "completed" in
  let nodes := WorkflowGraph.Nodes (Workflow.Definition_ wf) in
  let nodeMap := buildNodeMap nodes in
  match findNodeByType nodes "start" with
  | None =>
      t ← time_Now;
      mret (Some (ExecutionResponse.mk (format_RFC3339 t) "failed" [noStartStep]))
  | Some current => walk fuel wf nodeMap vars current status steps
  end.

(** [Execute] as the first text of executor.go has it (lines 24 to 136):
    the behaviours and edge resolution are handed [inputs], the map of the
    caller. *)
Definition Execute (fuel : nat) (wf : Workflow.t) (inputs : loc)
    : M (option ExecutionResponse.t) :=
  run fuel wf inputs.

(** [for k, v := range inputs { vars[k] = v }] *)
Definition copyEntries (inputs vars : loc) : M unit :=
  entries ← map_snapshot inputs;
  foldr (λ kv rest, map_assign vars kv.1 kv.2;; rest) (mret tt) (map_to_list entries).

(** [Execute] as the second text of executor.go has it (lines 400 to 506):
    the same function with a map [vars] of its own, filled from [inputs]. *)
Definition ExecuteCopy (fuel : nat) (wf : Workflow.t) (inputs : loc)
    : M (option ExecutionResponse.t) :=
  vars ← make_map;
  copyEntries inputs vars;;
  run fuel wf vars.

End Executor.

(** ** The words of the specification *)

(** A variable is a number (a [float64]), integer-typed (an [int]), a text
    or a given boolean. *)
Definition isNumber (v : option Value) : Prop := ∃ f, v = Some (VFloat f).
Definition isInteger (v : option Value) : Prop := ∃ z, v = Some (VInt z).
Definition isText (v : option Value) : Prop := ∃ s, v = Some (VString s).

Definition holdsBool (b : bool) (v : option Value) : bool :=
  match v with
  | Some (VBool b') => Bool.eqb b b'
  | _ => false
  end.

(** Edge resolution as the specification words it: an edge of the current
    node matches when its branch tag is empty, when the tag is "true" and
    [conditionMet] is present and boolean true, or when the tag is "false"
    and [conditionMet] is present and boolean false. *)
Definition edgeMatches (currentNodeID : string) (vars : gmap string Value)
    (e : Edge.t) : bool :=
  String.eqb (Edge.Source e) currentNodeID
  && (String.eqb (Edge.SourceHandle e) ""
      || (String.eqb (Edge.SourceHandle e) "true"
          && holdsBool true (vars !! "conditionMet"))
      || (String.eqb (Edge.SourceHandle e) "false"
          && holdsBool false (vars !! "conditionMet"))).

(** The first matching edge in declared order wins; [None] when no edge
    matches. *)
Definition firstMatch (edges : list Edge.t) (currentNodeID : string)
    (vars : gmap string Value) : option Edge.t :=
  find (edgeMatches currentNodeID vars) edges.

(** A branch tag that is neither empty nor "true" nor "false". *)
Definition unknownTag (e : Edge.t) : Prop :=
  Edge.SourceHandle e ≠ "" ∧ Edge.SourceHandle e ≠ "true"
  ∧ Edge.SourceHandle e ≠ "false".

(** The operators of the condition behaviour. *)
Inductive Operator :=
  | greater_than
  | less_than
  | equals
  | greater_than_or_equal
  | less_than_or_equal.

(** The operator a variable names; [greater_than] when the variable is
    absent, is not a text or names no operator. *)
Definition operatorOf (v : option Value) : Operator :=
  match v with
  | Some (VString s) =>
      if String.eqb s "less_than" then less_than
      else if String.eqb s "equals" then equals
      else if String.eqb s "greater_than_or_equal" then greater_than_or_equal
      else if String.eqb s "less_than_or_equal" then less_than_or_equal
      else greater_than
  | _ => greater_than
  end.

Definition compare (op : Operator) (temperature threshold : float) : bool :=
  match op with
  | greater_than => PrimFloat.ltb threshold temperature
  | less_than => PrimFloat.ltb temperature threshold
  | equals => PrimFloat.eqb temperature threshold
  | greater_than_or_equal => PrimFloat.leb threshold temperature
  | less_than_or_equal => PrimFloat.leb temperature threshold
  end.

(** The threshold as a number: itself, or the float equal to the integer. *)
Definition thresholdValue (v : option Value) : option float :=
  match v with
  | Some (VFloat f) => Some f
  | Some (VInt z) => Some (float64_of_int z)
  | _ => None
  end.

Definition completed (s : ExecutionStep.t) : Prop :=
  ExecutionStep.Status s = "completed".

Definition failed (s : ExecutionStep.t) : Prop :=
  ExecutionStep.Status s = "failed".

(** The sentinel of coordinate resolution: both coordinates compare equal
    to zero. *)
Definition isSentinel (c : float * float) : bool :=
  PrimFloat.eqb c.1 0 && PrimFloat.eqb c.2 0.

(** A graph without a cycle: a rank that every edge decreases. *)
Definition decreasing (rank : string → nat) (wf : Workflow.t) : Prop :=
  ∀ e, e ∈ WorkflowGraph.Edges (Workflow.Definition_ wf) →
       rank (Edge.Target e) < rank (Edge.Source e).

(** The state of the loop at the head of an iteration, and the relation
    between one head and the next. *)
Record LoopState := mkLoopState {
  atNode : Node.t;
  atStatus : string;
  atSteps : list ExecutionStep.t;
  atWorld : World
}.

Definition iterates (now : nat → Time) (fetchWeather : float → float → float + string)
    (wf : Workflow.t) (vars : loc) (a b : LoopState) : Prop :=
  loopBody now fetchWeather wf
    (buildNodeMap (WorkflowGraph.Nodes (Workflow.Definition_ wf))) vars
    (atNode a) (atStatus a) (atSteps a) (atWorld a)
  = (Next (atNode b) (atStatus b) (atSteps b), atWorld b).

(** A step without the two readings of the clock that the output of a sent
    email carries: [messageId] and the [timestamp] of [emailDraft]. *)
Definition timelessDraft (v : Value) : Value :=
  match v with
  | VMap draft => VMap (delete "timestamp" draft)
  | _ => v
  end.

Definition timelessOutput (o : gmap string Value) : gmap string Value :=
  alter timelessDraft "emailDraft" (delete "messageId" o).

Definition timeless (s : ExecutionStep.t) : ExecutionStep.t :=
  if String.eqb (ExecutionStep.Type_ s) "email" then
    ExecutionStep.mk (ExecutionStep.NodeID s) (ExecutionStep.Type_ s)
      (ExecutionStep.Label s) (ExecutionStep.Description s)
      (ExecutionStep.Status s) (timelessOutput <$> ExecutionStep.Output s)
      (ExecutionStep.Error s)
  else s.

(** Two responses that agree on everything but the readings of the clock. *)
Definition agree (r1 r2 : option ExecutionResponse.t) : Prop :=
  match r1, r2 with
  | Some r1, Some r2 =>
      ExecutionResponse.Status r1 = ExecutionResponse.Status r2
      ∧ timeless <$> ExecutionResponse.Steps r1 = timeless <$> ExecutionResponse.Steps r2
  | None, None => True
  | _, _ => False
  end.

(** A behaviour leaves the status of the step alone: the step comes back
    as it was, or with an output. *)
Definition keepsStatus (step : ExecutionStep.t)
    (r : ExecutionStep.t * option string) : Prop :=
  ExecutionStep.Status r.1 = ExecutionStep.Status step
  ∧ ExecutionStep.Type_ r.1 = ExecutionStep.Type_ step.

(** A computation that assigns to no map but [vars] and makes no map. *)
Definition writesOnly {A : Type} (vars : loc) (c : M A) : Prop :=
  ∀ w m, m ≠ vars → heap (c w).2 !! m = heap w !! m.

(** Two computations, run from worlds with the same maps, end in worlds
    with the same maps and with results related by [R]. The readings of the
    clock and the number of readings taken so far may differ. *)
Definition coupled {A B : Type} (R : A → B → Prop) (c1 : M A) (c2 : M B) : Prop :=
  ∀ w1 w2, heap w1 = heap w2 →
           R (c1 w1).1 (c2 w2).1 ∧ heap (c1 w1).2 = heap (c2 w2).2.

Definition sameTrace (steps1 steps2 : list ExecutionStep.t) : Prop :=
  timeless <$> steps1 = timeless <$> steps2.

Definition sameStep (r1 r2 : ExecutionStep.t * string) : Prop :=
  timeless r1.1 = timeless r2.1 ∧ r1.2 = r2.2.

Definition sameOutcome (r1 r2 : ExecutionStep.t * option string) : Prop :=
  timeless r1.1 = timeless r2.1 ∧ r1.2 = r2.2.

Definition sameIteration (i1 i2 : Iteration) : Prop :=
  match i1, i2 with
  | Return r1, Return r2 => agree (Some r1) (Some r2)
  | Break status1 steps1, Break status2 steps2 =>
      status1 = status2 ∧ sameTrace steps1 steps2
  | Next n1 status1 steps1, Next n2 status2 steps2 =>
      n1 = n2 ∧ status1 = status2 ∧ sameTrace steps1 steps2
  | _, _ => False
  end.

(** ** Sample data *)

Definition sampleNode (id type : string) (metadata : gmap string Value) : Node.t :=
  Node.mk id type (Position.mk 0 0) (NodeData.mk id "" metadata).

Definition sampleEdge (id source target sourceHandle : string) : Edge.t :=
  Edge.mk id source target "smoothstep" false ∅ "" ∅ sourceHandle.

Definition sampleWorkflow (nodes : list Node.t) (edges : list Edge.t) : Workflow.t :=
  Workflow.mk "wf" (WorkflowGraph.mk "wf" nodes edges).

(** Two clocks: one second per reading, the second an hour ahead. *)
Definition morning (k : nat) : Time := mkTime 2024 5 17 9 30 (Z.of_nat k) 0.
Definition later (k : nat) : Time := mkTime 2024 5 17 10 30 (Z.of_nat k) 0.

Definition sunny (lat lon : float) : float + string := inl 31.5%float.
Definition offline (lat lon : float) : float + string := inr "context deadline exceeded".

Definition sydney : Value :=
  VMap (<["city" := VString "Sydney"]>
          (<["lat" := VFloat (-33.8688)]> (<["lon" := VFloat 151.2093]> ∅))).

Definition weatherNode : Node.t :=
  sampleNode "weather" "integration" (<["options" := VList [sydney]]> ∅).

(** The edges of [TestFindNextNodeID]. *)
Definition testEdges : list Edge.t :=
  [ sampleEdge "e1" "start" "form" "";
    sampleEdge "e2" "form" "condition" "";
    sampleEdge "e3" "condition" "email" "true";
    sampleEdge "e4" "condition" "end" "false" ].

(** start, condition, then email or end. *)
Definition alertWorkflow : Workflow.t :=
  sampleWorkflow
    [ sampleNode "start" "start" ∅; sampleNode "condition" "condition" ∅;
      sampleNode "email" "email" ∅; sampleNode "end" "end" ∅ ]
    [ sampleEdge "e1" "start" "condition" "";
      sampleEdge "e3" "condition" "email" "true";
      sampleEdge "e4" "condition" "end" "false";
      sampleEdge "e5" "email" "end" "" ].

Definition hotDay : gmap string Value :=
  <["temperature" := VFloat 30]>
    (<["threshold" := VFloat 25]>
       (<["city" := VString "Sydney"]> (<["email" := VString "john@example.com"]> ∅))).

(** A condition node whose two branches lead to nodes that do not exist. *)
Definition startNode : Node.t := sampleNode "start" "start" ∅.
Definition conditionNode : Node.t := sampleNode "condition" "condition" ∅.

Definition danglingWorkflow : Workflow.t :=
  sampleWorkflow [ startNode; conditionNode ]
    [ sampleEdge "e1" "start" "condition" "";
      sampleEdge "e2" "condition" "ghost" "true";
      sampleEdge "e3" "condition" "phantom" "false" ].

(** A graph with no start node, from [TestExecutor_Execute]. *)
Definition headlessWorkflow : Workflow.t :=
  sampleWorkflow [ sampleNode "end" "end" ∅ ] [].

Definition blankStep : ExecutionStep.t :=
  ExecutionStep.mk "" "" "" "" "" None "".

(** An environment whose [city] is a number. *)
Definition mistypedCity : gmap string Value :=
  <["conditionMet" := VBool true]>
    (<["city" := VFloat 5]>
       (<["temperature" := VFloat 30]>
          (<["email" := VString "john@example.com"]> ∅))).

(** An integration node whose options list the city 5 at (1, 2). *)
Definition numberedOption : gmap string Value :=
  <["city" := VFloat 5]> (<["lat" := VFloat 1]> (<["lon" := VFloat 2]> ∅)).

Definition numberedNode : Node.t :=
  sampleNode "weather" "integration" (<["options" := VList [VMap numberedOption]]> ∅).

(** A rank for [alertWorkflow]: the distance to the end node. *)
Definition alertRank (id : string) : nat :=
  if String.eqb id "start" then 3
  else if String.eqb id "condition" then 2
  else if String.eqb id "email" then 1
  else 0.

(** The caller of [TestExecutor_ProcessConditionNode], run as a workflow:
    start, then the condition node. *)
Definition conditionWorkflow : Workflow.t :=
  sampleWorkflow
    [ sampleNode "start" "start" ∅; sampleNode "condition" "condition" ∅ ]
    [ sampleEdge "e1" "start" "condition" "" ].

Definition callerInputs : gmap string Value :=
  <["temperature" := VFloat 30]>
    (<["threshold" := VFloat 25]> (<["operator" := VString "greater_than"]> ∅)).

(** The [messageId] in the output of the [i]-th step of a response. *)
Definition messageIdAt (i : nat) (r : option ExecutionResponse.t) : option string :=
  match r with
  | Some r =>
      match ExecutionResponse.Steps r !! i with
      | Some step =>
          match ExecutionStep.Output step with
          | Some o => as_string (index o "messageId")
          | None => None
          end
      | None => None
      end
  | None => None
  end.

Definition statusOf (r : option ExecutionResponse.t) : option string :=
  match r with
  | Some r => Some (ExecutionResponse.Status r)
  | None => None
  end.

Definition stepsOf (r : option ExecutionResponse.t) : list ExecutionStep.t :=
  match r with
  | Some r => ExecutionResponse.Steps r
  | None => []
  end.

(** [callerInputs] with the integer-typed threshold of the "int threshold"
    case of [TestExecutor_ProcessConditionNode]. *)
Definition intThreshold : gmap string Value :=
  <["threshold" := VInt 25]> callerInputs.

(** [hotDay] after a condition node has found the condition met. *)
Definition alertDay : gmap string Value :=
  <["conditionMet" := VBool true]> hotDay.

(** An edge with a branch tag that is no boolean. *)
Definition maybeEdge : Edge.t := sampleEdge "e9" "start" "end" "maybe".

(** The graphs and inputs of [TestExecutor_Execute]. *)
Definition startEndWorkflow : Workflow.t :=
  sampleWorkflow [ sampleNode "start" "start" ∅; sampleNode "end" "end" ∅ ]
    [ sampleEdge "e1" "start" "end" "" ].

Definition formWorkflow : Workflow.t :=
  sampleWorkflow
    [ sampleNode "start" "start" ∅;
      sampleNode "form" "form"
        (<["inputFields" := VList [VString "name"; VString "email"]]> ∅);
      sampleNode "end" "end" ∅ ]
    [ sampleEdge "e1" "start" "form" ""; sampleEdge "e2" "form" "end" "" ].

Definition johnDoe : gmap string Value :=
  <["name" := VString "John Doe"]> (<["email" := VString "john@example.com"]> ∅).

(** The nodes of [TestFindNodeByType]. *)
Definition testNodes : list Node.t :=
  [ sampleNode "start" "start" ∅; sampleNode "form" "form" ∅;
    sampleNode "end" "end" ∅ ].

(** The node of [TestExecutor_GetCityCoordinates]. *)
Definition citiesNode : Node.t :=
  sampleNode "" ""
    (<["options" :=
         VList [ VMap (<["city" := VString "Sydney"]>
                         (<["lat" := VFloat (-33.8688)]>
                            (<["lon" := VFloat 151.2093]> ∅)));
                 VMap (<["city" := VString "Melbourne"]>
                         (<["lat" := VFloat (-37.8136)]>
                            (<["lon" := VFloat 144.9631]> ∅))) ]]> ∅).


(** ** Further words for the behaviours *)

(** The field names a form node declares: the texts among the entries of
    [inputFields], in order. *)
Definition declaredFields (inputFields : list Value) : list string :=
  omap as_string inputFields.

Definition isAbsent (env : gmap string Value) (name : string) : bool :=
  match env !! name with
  | None => true
  | Some _ => false
  end.

(** The coordinates an entry of the options gives for a city: it is a map whose
    [city] is that text and whose [lat] and [lon] are numbers. *)
Definition cityOption (city : string) (entry : Value) : option (float * float) :=
  match entry with
  | VMap cityData =>
      match cityData !! "city", cityData !! "lat", cityData !! "lon" with
      | Some (VString name), Some (VFloat lat), Some (VFloat lon) =>
          if String.eqb name city then Some (lat, lon) else None
      | _, _, _ => None
      end
  | _ => None
  end.

(** The form node of [TestExecutor_ProcessFormNode], with an entry that is
    no text. *)
Definition formNode : Node.t :=
  sampleNode "form" "form"
    (<["inputFields" := VList [VString "name"; VFloat 7; VString "email"]]> ∅).

(** Options whose first entry for Perth has an integer latitude. *)
Definition perthNode : Node.t :=
  sampleNode "weather" "integration"
    (<["options" :=
         VList [ VMap (<["city" := VString "Perth"]>
                         (<["lat" := VInt (-32)]> (<["lon" := VFloat 115.8605]> ∅)));
                 VString "Perth";
                 VMap (<["city" := VString "Perth"]>
                         (<["lat" := VFloat (-31.9505)]>
                            (<["lon" := VFloat 115.8605]> ∅))) ]]> ∅).

(** Two nodes with the id "a", and two start nodes. *)
Definition twinNodes : list Node.t :=
  [ sampleNode "a" "start" ∅; sampleNode "b" "form" ∅;
    sampleNode "a" "email" ∅; sampleNode "c" "start" ∅ ].

(** ** Further words for the walk *)

(** A step that records a visit of the node: it carries its id, type,
    label and description. *)
Definition stepOf (n : Node.t) (s : ExecutionStep.t) : Prop :=
  ExecutionStep.NodeID s = Node.ID n
  ∧ ExecutionStep.Type_ s = Node.Type_ n
  ∧ ExecutionStep.Label s = NodeData.Label (Node.Data n)
  ∧ ExecutionStep.Description s = NodeData.Description (Node.Data n).

(** Two steps with the same id, type, label and description. *)
Definition sameHeader (s s' : ExecutionStep.t) : Prop :=
  ExecutionStep.NodeID s' = ExecutionStep.NodeID s
  ∧ ExecutionStep.Type_ s' = ExecutionStep.Type_ s
  ∧ ExecutionStep.Label s' = ExecutionStep.Label s
  ∧ ExecutionStep.Description s' = ExecutionStep.Description s.

Definition hasEdge (wf : Workflow.t) (source target : string) : Prop :=
  ∃ e, e ∈ WorkflowGraph.Edges (Workflow.Definition_ wf)
       ∧ Edge.Source e = source ∧ Edge.Target e = target.

(** The steps record a path of the graph that begins at the node: one step
    per node, each node after the first reached from the one before it
    along an edge. *)
Fixpoint tracesPath (wf : Workflow.t) (n : Node.t) (steps : list ExecutionStep.t)
    : Prop :=
  match steps with
  | [] => False
  | s :: rest =>
      stepOf n s
      ∧ n ∈ WorkflowGraph.Nodes (Workflow.Definition_ wf)
      ∧ (rest = []
         ∨ ∃ n', hasEdge wf (Node.ID n) (Node.ID n') ∧ tracesPath wf n' rest)
  end.

(** A computation that leaves the entry of [k] in the map [vars] as it is. *)
Definition keepsKey {A : Type} (vars : loc) (k : string) (c : M A) : Prop :=
  ∀ w, env_at (c w).2 vars !! k = env_at w vars !! k.

(** The six node types the executor knows. *)
Definition knownType (type : string) : bool :=
  String.eqb type "start" || String.eqb type "form"
  || String.eqb type "integration" || String.eqb type "condition"
  || String.eqb type "email" || String.eqb type "end".

(** A workflow that reaches a node of a type the executor does not know. *)
Definition oddWorkflow : Workflow.t :=
  sampleWorkflow [ startNode; sampleNode "wait" "delay" ∅ ]
    [ sampleEdge "e1" "start" "wait" "" ].

(** ** Further words for the two texts of [Execute] *)

(** Two worlds in which the map [v1] of the first holds what the map [v2]
    of the second holds, and the clock has been read as often. *)
Definition mirrors (v1 v2 : loc) (w1 w2 : World) : Prop :=
  heap w1 !! v1 = heap w2 !! v2 ∧ ticks w1 = ticks w2.

(** Two computations that, run from mirroring worlds, give the same result
    and end in mirroring worlds. *)
Definition mirrored {A : Type} (v1 v2 : loc) (c1 c2 : M A) : Prop :=
  ∀ w1 w2, mirrors v1 v2 w1 w2 →
           (c1 w1).1 = (c2 w2).1 ∧ mirrors v1 v2 (c1 w1).2 (c2 w2).2.

(** ** The HTTP handler of an execution (workflow.go) *)

(** [ExecutionRequest] (types.go). A nil [FormData] is ranged over like an
    empty one, so it is a map; [Condition] and [WorkflowDefinition] are
    tested against nil. *)
Module ExecutionRequest.
Record t := mk {
  FormData : gmap string Value;
  Condition : option (gmap string Value);
  WorkflowDefinition : option WorkflowGraph.t
}.
End ExecutionRequest.

(** What the handler writes to the client: [http.Error(w, message, code)],
    or the status 200 with the JSON document of the response. *)
Inductive Reply :=
  | HttpError (message : string) (code : nat)
  | HttpOK (body : ExecutionResponse.t).

(** What a call of the handler has done: the reply, [None] while the
    executor has not returned, and the workflow handed to
    [repo.SaveWorkflow], if it was called. An error of the save is logged
    and changes nothing else. *)
Record Handled := mkHandled {
  reply : option Reply;
  saved : option Workflow.t
}.

(** [for k, v := range entries { m[k] = v }] *)
Definition assignEntries (m : loc) (entries : gmap string Value) : M unit :=
  foldr (λ kv rest, map_assign m kv.1 kv.2;; rest) (mret tt) (map_to_list entries).

Section Service.

Variable now : nat → Time.
Variable fetchWeather : float → float → float + string.

(** [strconv.ParseFloat(v, 64)], [None] for an error. *)
Variable ParseFloat : string → option float.

(** [json.Unmarshal(body, &execReq)], [None] for an error. *)
Variable Unmarshal : string → option ExecutionRequest.t.

(** [s.repo.GetWorkflow(ctx, id)] *)
Variable GetWorkflow : string → Workflow.t + string.

(** The [switch v := threshold.(type)] of workflow.go: the threshold is
    stored as a [float64], or the request is refused. *)
Definition normaliseThreshold (inputs : loc) (threshold : Value) : M (option Reply) :=
  match threshold with
  | VFloat v => map_assign inputs "threshold" (VFloat v);; mret None
  | VInt v => map_assign inputs "threshold" (VFloat (float64_of_int v));; mret None
  | VString v =>
      match ParseFloat v with
      | Some f => map_assign inputs "threshold" (VFloat f);; mret None
      | None => mret (Some (HttpError "Invalid threshold value" 400))
      end
  | _ => mret (Some (HttpError "Invalid threshold type" 400))
  end.

(** The other text of the handler has [inputs["threshold"] = threshold] in
    the place of the switch. *)
Definition plainThreshold (inputs : loc) (threshold : Value) : M (option Reply) :=
  map_assign inputs "threshold" threshold;; mret None.

(** [if execReq.Condition != nil { ... }]: the operator, when it is a text,
    and the threshold, when the key is there. [Some] is the reply of an
    early return. *)
Definition addCondition (thresholdStep : loc → Value → M (option Reply))
    (condition : option (gmap string Value)) (inputs : loc) : M (option Reply) :=
  match condition with
  | None => mret None
  | Some condition =>
      match as_string (index condition "operator") with
      | Some operator => map_assign inputs "operator" (VString operator)
      | None => mret tt
      end;;
      match condition !! "threshold" with
      | Some threshold => thresholdStep inputs threshold
      | None => mret None
      end
  end.

(** [HandleExecuteWorkflow], from the request body as [io.ReadAll] gives it
    ([inr] for its error) to the reply. The document of the response is
    taken to encode. *)
Definition handleExecute (thresholdStep : loc → Value → M (option Reply))
    (fuel : nat) (id : string) (body : string + string) : M Handled :=
  match body with
  | inr _ => mret (mkHandled (Some (HttpError "Failed to read request body" 400)) None)
  | inl body =>
      match Unmarshal body with
      | None => mret (mkHandled (Some (HttpError "Invalid request format" 400)) None)
      | Some execReq =>
          match GetWorkflow id with
          | inr err =>
              mret (mkHandled (Some (HttpError ("Workflow not found: " +:+ err) 404))
                      None)
          | inl stored =>
              let '(workflow, saved) :=
                match ExecutionRequest.WorkflowDefinition execReq with
                | Some definition =>
                    let workflow := Workflow.mk (Workflow.ID stored) definition in
                    (workflow, Some workflow)
                | None => (stored, None)
                end in
              inputs ← make_map;
              assignEntries inputs (ExecutionRequest.FormData execReq);;
              refused ← addCondition thresholdStep
                          (ExecutionRequest.Condition execReq) inputs;
              match refused with
              | Some error => mret (mkHandled (Some error) saved)
              | None =>
                  executionResult ← Execute now fetchWeather fuel workflow inputs;
                  mret (mkHandled (HttpOK <$> executionResult) saved)
              end
          end
      end
  end.

(** The handler of workflow.go. *)
Definition HandleExecuteWorkflow : nat → string → string + string → M Handled :=
  handleExecute normaliseThreshold.

(** The handler in its other text. *)
Definition HandleExecuteWorkflowPlain : nat → string → string + string → M Handled :=
  handleExecute plainThreshold.

End Service.

(** The number a threshold of a request stands for. *)
Definition thresholdNumber (ParseFloat : string → option float) (v : Value)
    : option float :=
  match v with
  | VFloat f => Some f
  | VInt z => Some (float64_of_int z)
  | VString s => ParseFloat s
  | _ => None
  end.

(** [validateWorkflow], the helper of the serialisation tests. *)
Definition validateWorkflow (workflow : option Workflow.t) : bool :=
  match workflow with
  | None => false
  | Some workflow =>
      let flags :=
        foldl (λ (flags : bool * bool) (node : Node.t),
                 (if String.eqb (Node.Type_ node) "start" then true else flags.1,
                  if String.eqb (Node.Type_ node) "end" then true else flags.2))
          (false, false)
          (WorkflowGraph.Nodes (Workflow.Definition_ workflow)) in
      flags.1 && flags.2
  end.

(** The entry of a key in the condition of a request. *)
Definition conditionEntry (condition : option (gmap string Value)) (k : string)
    : option Value :=
  match condition with
  | Some condition => condition !! k
  | None => None
  end.

(** The reply to a threshold that stands for no number. *)
Definition refusal (threshold : Value) : Reply :=
  match threshold with
  | VString _ => HttpError "Invalid threshold value" 400
  | _ => HttpError "Invalid threshold type" 400
  end.

(** The workflow the handler executes, and hands to [repo.SaveWorkflow]:
    the stored one, with the definition of the request when it has one. *)
Definition overridden (stored : Workflow.t) (execReq : ExecutionRequest.t)
    : Workflow.t :=
  match ExecutionRequest.WorkflowDefinition execReq with
  | Some definition => Workflow.mk (Workflow.ID stored) definition
  | None => stored
  end.

(** Sample requests: a stored workflow, a decoder that knows two bodies,
    and a parser of the one number text the samples use. *)
Definition sampleRequest (threshold : Value) : ExecutionRequest.t :=
  ExecutionRequest.mk
    (<["temperature" := VFloat 30]> (<["operator" := VString "less_than"]> ∅))
    (Some (<["operator" := VString "greater_than"]>
             (<["threshold" := threshold]> ∅)))
    (Some (WorkflowGraph.mk "wf" [ startNode; conditionNode ]
             [ sampleEdge "e1" "start" "condition" "" ])).

Definition sampleUnmarshal (body : string) : option ExecutionRequest.t :=
  if String.eqb body "text" then Some (sampleRequest (VString "25"))
  else if String.eqb body "flag" then Some (sampleRequest (VBool true))
  else None.

Definition sampleParseFloat (s : string) : option float :=
  if String.eqb s "25" then Some 25%float else None.

Definition sampleGetWorkflow (id : string) : Workflow.t + string :=
  if String.eqb id "wf" then inl alertWorkflow else inr "no rows in result set".

(** * Properties *)

(** ** Edge resolution *)

(** One edge of the loop of [findNextNodeID]: it is taken exactly when it
    matches in the sense of the specification. *)
Lemma findNextNodeID_cons (e : Edge.t) (rest : list Edge.t) (cur : string)
    (vars : gmap string Value) :
  findNextNodeID (e :: rest) cur vars =
    if edgeMatches cur vars e then Edge.Target e
    else findNextNodeID rest cur vars.
Proof.
  simpl. unfold edgeMatches, index, holdsBool.
  destruct (String.eqb (Edge.Source e) cur); simpl; [|done].
  destruct (String.eqb_spec (Edge.SourceHandle e) "") as [->|Hne]; simpl; [done|].
  destruct (vars !! "conditionMet") as [[| [] | | | | |]|]; simpl;
    rewrite ?andb_false_r, ?andb_true_r, ?orb_false_r; done.
Qed.

(** C2. Edge resolution returns the target of the first edge, in declared
    order, that leaves the current node and matches: an empty branch tag
    matches always, the tag "true" only when [conditionMet] is present and
    boolean true, the tag "false" only when it is present and boolean
    false. When no edge matches the result is the empty string, which the
    walk reads as "no next node". *)
Theorem findNextNodeID_first_match (edges : list Edge.t) (currentNodeID : string)
    (vars : gmap string Value) :
  findNextNodeID edges currentNodeID vars =
    match firstMatch edges currentNodeID vars with
    | Some e => Edge.Target e
    | None => ""
    end.
Proof.
  unfold firstMatch. induction edges as [|e rest IH]; [done|].
  rewrite findNextNodeID_cons. simpl.
  destruct (edgeMatches currentNodeID vars e); [done | apply IH].
Qed.

Lemma unknownTag_no_match (e : Edge.t) (cur : string) (vars : gmap string Value) :
  unknownTag e → edgeMatches cur vars e = false.
Proof.
  intros (H1 & H2 & H3). unfold edgeMatches.
  apply String.eqb_neq in H1, H2, H3. rewrite H1, H2, H3. simpl.
  apply andb_false_r.
Qed.

(** C10. An edge whose branch tag is not empty, not "true" and not "false"
    is never selected, whatever the environment holds: edge resolution
    gives the same result with the edge and without it, so the scan goes on
    to the later edges; and when every edge of the current node is such an
    edge, the result is the empty string, "no next node". *)
Theorem findNextNodeID_skips_unknown_tag (e : Edge.t) (Htag : unknownTag e) :
  (∀ before after cur vars,
      findNextNodeID (before ++ e :: after) cur vars
      = findNextNodeID (before ++ after) cur vars)
  ∧ (∀ edges cur vars,
      (∀ e', e' ∈ edges → Edge.Source e' = cur → e' = e) →
      findNextNodeID edges cur vars = "").
Proof.
  split.
  - intros before after cur vars.
    induction before as [|e0 before IH]; simpl app.
    + rewrite findNextNodeID_cons, unknownTag_no_match; done.
    + rewrite !findNextNodeID_cons, IH. done.
  - intros edges cur vars Honly.
    induction edges as [|e0 edges IH]; [done|].
    rewrite findNextNodeID_cons.
    destruct (edgeMatches cur vars e0) eqn:Hm.
    + assert (e0 = e) as ->.
      { apply Honly; [left|].
        unfold edgeMatches in Hm. apply andb_true_iff in Hm as [Hs _].
        by apply String.eqb_eq. }
      rewrite unknownTag_no_match in Hm; done.
    + apply IH. intros e' He'. apply Honly. by right.
Qed.

(** ** The store *)

Ltac unfold_M :=
  unfold mbind, M_bind, mret, M_ret, map_index, map_lookup, map_assign,
    map_snapshot, make_map, time_Now in *.

Lemma env_at_live (w : World) (m : loc) (k : string) (v : Value) :
  env_at w m !! k = Some v → heap w !! m = Some (env_at w m).
Proof.
  unfold env_at. destruct (heap w !! m); simpl; [done|].
  rewrite lookup_empty. discriminate.
Qed.

Lemma env_at_assign (w : World) (m : loc) (k : string) (v : Value) :
  heap w !! m = Some (env_at w m) →
  env_at (map_assign m k v w).2 m = <[k := v]> (env_at w m).
Proof.
  intros Hlive. unfold map_assign, env_at at 1. simpl.
  rewrite list_lookup_alter_eq, Hlive. done.
Qed.

(** ** The condition behaviour *)

Lemma applyOperator_compare (v : Value) (t th : float) :
  applyOperator (default "greater_than" (as_string v)) t th
  = compare (operatorOf (Some v)) t th.
Proof.
  destruct v; try done. simpl. unfold applyOperator.
  destruct (String.eqb_spec s "greater_than") as [->|]; [done|].
  repeat (destruct (String.eqb s _); [done|]). done.
Qed.

Lemma operatorOf_index (env : gmap string Value) :
  operatorOf (Some (index env "operator")) = operatorOf (env !! "operator").
Proof. unfold index. destruct (env !! "operator"); done. Qed.

Lemma thresholdOf_index (env : gmap string Value) :
  thresholdOf (index env "threshold") = thresholdValue (env !! "threshold").
Proof. unfold index. destruct (env !! "threshold") as [[]|]; done. Qed.

Lemma as_float64_index (env : gmap string Value) (k : string) (f : float) :
  as_float64 (index env k) = Some f ↔ env !! k = Some (VFloat f).
Proof.
  unfold index. destruct (env !! k) as [[]|]; simpl; split; intros H;
    try discriminate; congruence.
Qed.

Lemma as_float64_None (env : gmap string Value) (k : string) :
  as_float64 (index env k) = None ↔ ¬ isNumber (env !! k).
Proof.
  unfold index, isNumber. destruct (env !! k) as [[]|]; simpl; split;
    try done; try (intros _ [? ?]; discriminate).
  intros H. destruct H. eauto.
Qed.

Lemma as_string_index (env : gmap string Value) (k : string) (s : string) :
  as_string (index env k) = Some s ↔ env !! k = Some (VString s).
Proof.
  unfold index. destruct (env !! k) as [[]|]; simpl; split; intros H;
    try discriminate; congruence.
Qed.

Lemma as_string_None (env : gmap string Value) (k : string) :
  as_string (index env k) = None ↔ ¬ isText (env !! k).
Proof.
  unfold index, isText. destruct (env !! k) as [[]|]; simpl; split;
    try done; try (intros _ [? ?]; discriminate).
  intros H. destruct H. eauto.
Qed.

Lemma thresholdValue_None (v : option Value) :
  thresholdValue v = None ↔ ¬ isNumber v ∧ ¬ isInteger v.
Proof.
  unfold isNumber, isInteger. destruct v as [[]|]; simpl; split; try done;
    try (intros _; split; intros [? ?]; discriminate).
  - intros [H _]. destruct H. eauto.
  - intros [_ H]. destruct H. eauto.
Qed.

(** The behaviour as a function of the contents of the map. *)
Lemma processConditionNode_run (vars : loc) (step : ExecutionStep.t) (w : World) :
  let env := env_at w vars in
  processConditionNode vars step w =
    match as_float64 (index env "temperature") with
    | None => ((step, Some "temperature not found in variables"), w)
    | Some t =>
        match thresholdValue (env !! "threshold") with
        | None => ((step, Some "threshold not found in variables"), w)
        | Some th =>
            let op := default "greater_than" (as_string (index env "operator")) in
            let met := compare (operatorOf (env !! "operator")) t th in
            ((ExecutionStep.set_Output
                (<["conditionMet" := VBool met]>
                   (<["threshold" := VFloat th]>
                      (<["operator" := VString op]>
                         (<["actualValue" := VFloat t]>
                            (<["message" := VString (conditionMessage t op th met)]> ∅)))))
                step, None),
             (map_assign vars "conditionMet" (VBool met) w).2)
        end
    end.
Proof.
  intros env. subst env. unfold processConditionNode. unfold_M.
  destruct (as_float64 (index (env_at w vars) "temperature")) as [t|]; [|done].
  rewrite thresholdOf_index.
  destruct (thresholdValue (env_at w vars !! "threshold")) as [th|]; [|done].
  rewrite applyOperator_compare, operatorOf_index. done.
Qed.

(** C6. When [temperature] is a number and [threshold] is a number or
    integer-typed, the condition behaviour succeeds and writes into the
    environment, and records in the output, [conditionMet] as the operator
    named by [operator] applied to temperature and threshold, the operator
    being greater_than when [operator] is absent or names none. The
    behaviour fails exactly when [temperature] is not there as a number, or
    [threshold] is there neither as a number nor as an integer. With an
    integer-typed threshold the step, the error and the [conditionMet]
    written are those of the run with the equal float. *)
Theorem processConditionNode_spec (vars : loc) (step : ExecutionStep.t) (w : World) :
  let env := env_at w vars in
  let result := processConditionNode vars step w in
  (∀ t th,
      env !! "temperature" = Some (VFloat t) →
      thresholdValue (env !! "threshold") = Some th →
      let met := compare (operatorOf (env !! "operator")) t th in
      result.1.2 = None
      ∧ env_at result.2 vars = <["conditionMet" := VBool met]> env
      ∧ ∃ o, ExecutionStep.Output result.1.1 = Some o
             ∧ o !! "conditionMet" = Some (VBool met))
  ∧ (result.1.2 ≠ None ↔
       ¬ isNumber (env !! "temperature")
       ∨ (¬ isNumber (env !! "threshold") ∧ ¬ isInteger (env !! "threshold")))
  ∧ (∀ z w', env_at w' vars = <["threshold" := VFloat (float64_of_int z)]> env →
       env !! "threshold" = Some (VInt z) →
       result.1 = (processConditionNode vars step w').1
       ∧ env_at result.2 vars !! "conditionMet"
         = env_at (processConditionNode vars step w').2 vars !! "conditionMet").
Proof.
  intros env result. subst result. rewrite processConditionNode_run. fold env.
  split; [|split].
  - intros t th Ht Hth met.
    pose proof (env_at_live _ _ _ _ Ht) as Hlive.
    apply as_float64_index in Ht. rewrite Ht, Hth. simpl.
    split; [done|]. split; [by apply env_at_assign|].
    eexists. split; [done|]. by rewrite lookup_insert_eq.
  - rewrite <- as_float64_None, <- thresholdValue_None.
    destruct (as_float64 (index env "temperature")) as [t|]; simpl.
    + destruct (thresholdValue (env !! "threshold")) as [th|]; simpl.
      * split; [done|]. intros [?|?]; done.
      * split; [by right | done].
    + split; [by left | done].
  - intros z w' Hw' Hz. rewrite processConditionNode_run. rewrite Hw'.
    unfold index. rewrite lookup_insert_eq, !lookup_insert_ne by done.
    rewrite Hz. cbn -[map_assign]. fold (index env "temperature") (index env "operator").
    destruct (as_float64 (index env "temperature")) as [t|] eqn:Ht; cbn -[map_assign].
    + apply as_float64_index in Ht.
      pose proof (env_at_live _ _ _ _ Ht) as Hlive.
      assert (heap w' !! vars = Some (env_at w' vars)) as Hlive'.
      { apply (env_at_live _ _ "temperature" (VFloat t)).
        rewrite Hw'. by rewrite lookup_insert_ne. }
      split; [done|].
      rewrite !env_at_assign by done. by rewrite !lookup_insert_eq.
    + split; [done|]. rewrite Hw'. by rewrite lookup_insert_ne.
Qed.

(** ** The email behaviour *)

Lemma as_bool_true (env : gmap string Value) :
  as_bool (index env "conditionMet") = Some true
  ↔ env !! "conditionMet" = Some (VBool true).
Proof.
  unfold index. destruct (env !! "conditionMet") as [[]|]; simpl; split;
    intros H; try discriminate; congruence.
Qed.

Lemma is_true_or_not (v : option Value) :
  v = Some (VBool true) ∨ v ≠ Some (VBool true).
Proof. destruct v as [[| [] | | | | |]|]; auto. Qed.

Lemma processEmailNode_skip (now : nat → Time) (vars : loc)
    (step : ExecutionStep.t) (w : World) :
  env_at w vars !! "conditionMet" ≠ Some (VBool true) →
  processEmailNode now vars step w =
    ((ExecutionStep.set_Output
        (<["emailSent" := VBool false]>
           (<["message" := VString "Condition not met, no email sent"]> ∅))
        step, None), w).
Proof.
  intros Hc. unfold processEmailNode. unfold_M.
  destruct (as_bool (index (env_at w vars) "conditionMet")) as [[]|] eqn:Hb;
    try done.
  by apply as_bool_true in Hb.
Qed.

Lemma processEmailNode_send (now : nat → Time) (vars : loc)
    (step : ExecutionStep.t) (w : World) :
  let env := env_at w vars in
  env !! "conditionMet" = Some (VBool true) →
  processEmailNode now vars step w =
    match as_string (index env "city") with
    | None => ((step, Some "city not found in variables"), w)
    | Some city =>
        match as_float64 (index env "temperature") with
        | None => ((step, Some "temperature not found in variables"), w)
        | Some temperature =>
            match as_string (index env "email") with
            | None => ((step, Some "email not found in variables"), w)
            | Some email =>
                ((ExecutionStep.set_Output
                    (<["emailDraft" :=
                         VMap (<["to" := VString email]>
                                 (<["from" := VString "weather-alerts@example.com"]>
                                    (<["subject" := VString "Weather Alert"]>
                                       (<["body" := VString ("Weather alert for " +:+ city
                                                             +:+ "! Temperature is "
                                                             +:+ fmt_f1 temperature +:+ "°C!")]>
                                          (<["timestamp" :=
                                               VString (format_RFC3339 (now (ticks w)))]> ∅)))))]>
                       (<["deliveryStatus" := VString "sent"]>
                          (<["messageId" :=
                               VString ("msg_" +:+ format_stamp (now (S (ticks w))))]>
                             (<["emailSent" := VBool true]> ∅)))) step, None),
                 mkWorld (heap w) (S (S (ticks w))))
            end
        end
    end.
Proof.
  intros env Hc. subst env. apply as_bool_true in Hc.
  unfold processEmailNode. unfold_M. rewrite Hc.
  destruct (as_string (index (env_at w vars) "city")); [|done].
  destruct (as_float64 (index (env_at w vars) "temperature")); [|done].
  destruct (as_string (index (env_at w vars) "email")); done.
Qed.

(** C7, as stated, fails: with [conditionMet] true and [city],
    [temperature] and [email] all present, [city] being a number, the email
    behaviour fails although no variable is missing. *)
Lemma processEmailNode_mistyped_city_fails :
  let env := mistypedCity in
  let result := processEmailNode morning 0 blankStep (mkWorld [env] 0) in
  env !! "conditionMet" = Some (VBool true)
  ∧ ¬ (result.1.2 ≠ None ↔
         env !! "city" = None ∨ env !! "temperature" = None ∨ env !! "email" = None).
Proof.
  split; [reflexivity|].
  intros [Hfail _].
  assert (processEmailNode morning 0 blankStep (mkWorld [mistypedCity] 0)
          = ((blankStep, Some "city not found in variables"),
             mkWorld [mistypedCity] 0)) as Hrun by reflexivity.
  rewrite Hrun in Hfail. simpl in Hfail.
  destruct Hfail as [H|[H|H]]; [done | discriminate H ..].
Qed.

(** C7, amended. When [conditionMet] is not the boolean true (absent, false
    or no boolean), the email behaviour succeeds with the output
    [{emailSent: false, message: "Condition not met, no email sent"}]
    whatever the other variables. When it is true, the behaviour fails
    exactly when [city] is not there as a text, [temperature] is not there
    as a number or [email] is not there as a text; otherwise the output has
    [emailSent = true] and a non-empty [messageId]. *)
Theorem processEmailNode_spec (now : nat → Time) (vars : loc)
    (step : ExecutionStep.t) (w : World) :
  let env := env_at w vars in
  let result := processEmailNode now vars step w in
  (env !! "conditionMet" ≠ Some (VBool true) →
     result.1.2 = None
     ∧ ExecutionStep.Output result.1.1 =
         Some (<["emailSent" := VBool false]>
                 (<["message" := VString "Condition not met, no email sent"]> ∅)))
  ∧ (env !! "conditionMet" = Some (VBool true) →
       (result.1.2 ≠ None ↔
          ¬ isText (env !! "city") ∨ ¬ isNumber (env !! "temperature")
          ∨ ¬ isText (env !! "email"))
       ∧ (result.1.2 = None →
            ∃ o id, ExecutionStep.Output result.1.1 = Some o
                    ∧ o !! "emailSent" = Some (VBool true)
                    ∧ o !! "messageId" = Some (VString id) ∧ id ≠ "")).
Proof.
  intros env result. subst result. split.
  - intros Hc. rewrite processEmailNode_skip by done. done.
  - intros Hc. rewrite processEmailNode_send by done. fold env.
    rewrite <- !as_string_None, <- as_float64_None.
    destruct (as_string (index env "city")) as [city|]; simpl;
      [|split; [split; [by left | done] | done]].
    destruct (as_float64 (index env "temperature")) as [t|]; simpl;
      [|split; [split; [by (right; left) | done] | done]].
    destruct (as_string (index env "email")) as [email|]; simpl;
      [|split; [split; [by (right; right) | done] | done]].
    split.
    + split; [done|]. intros [?|[?|?]]; done.
    + intros _. eexists _, _. split; [done|].
      split; [done|]. split; [done|]. done.
Qed.

(** ** The integration behaviour *)

Lemma processIntegrationNode_run (fetchWeather : float → float → float + string)
    (node : Node.t) (vars : loc) (step : ExecutionStep.t) (w : World) :
  let env := env_at w vars in
  processIntegrationNode fetchWeather node vars step w =
    match as_string (index env "city") with
    | None => ((step, Some "city not found in variables"), w)
    | Some city =>
        let c := getCityCoordinates node city in
        if isSentinel c then
          ((step, Some ("coordinates not found for city: " +:+ city)), w)
        else
          match fetchWeather c.1 c.2 with
          | inr err => ((step, Some ("failed to fetch weather data: " +:+ err)), w)
          | inl temperature =>
              ((ExecutionStep.set_Output
                  (<["temperature" := VFloat temperature]>
                     (<["location" := VString city]> ∅)) step, None),
               (map_assign vars "temperature" (VFloat temperature) w).2)
          end
    end.
Proof.
  intros env. subst env. unfold processIntegrationNode. unfold_M.
  destruct (as_string (index (env_at w vars) "city")) as [city|]; [|done].
  unfold isSentinel. cbn zeta.
  destruct (getCityCoordinates node city) as [lat lon]. simpl.
  destruct (PrimFloat.eqb lat 0 && PrimFloat.eqb lon 0); [done|].
  destruct (fetchWeather lat lon); done.
Qed.

(** C8, as stated, fails: the variable [city] is present (the number 5),
    the options of the node list that very value with the coordinates
    (1, 2), and the lookup never fails; the integration behaviour fails all
    the same. *)
Lemma processIntegrationNode_mistyped_city_fails :
  let env := mistypedCity in
  let result :=
    processIntegrationNode sunny numberedNode 0 blankStep (mkWorld [env] 0) in
  is_Some (env !! "city")
  ∧ (NodeData.Metadata (Node.Data numberedNode) !! "options"
       = Some (VList [VMap numberedOption])
     ∧ numberedOption !! "city" = env !! "city"
     ∧ numberedOption !! "lat" = Some (VFloat 1)
     ∧ numberedOption !! "lon" = Some (VFloat 2))
  ∧ (∀ lat lon, ∃ reading, sunny lat lon = inl reading)
  ∧ result.1.2 = Some "city not found in variables".
Proof.
  split; [by eexists|]. split; [repeat split|].
  split; [intros; by eexists | reflexivity].
Qed.

(** C8, amended. The integration behaviour fails exactly when [city] is not
    there as a text, or it is and the options of the node resolve it to the
    sentinel (0, 0), or the lookup at the resolved coordinates fails. When
    it succeeds, the reading of the lookup has been written into the
    environment under [temperature], and the output of the step is
    [{temperature, location}]. *)
Theorem processIntegrationNode_spec (fetchWeather : float → float → float + string)
    (node : Node.t) (vars : loc) (step : ExecutionStep.t) (w : World) :
  let env := env_at w vars in
  let result := processIntegrationNode fetchWeather node vars step w in
  (result.1.2 ≠ None ↔
     ¬ isText (env !! "city")
     ∨ ∃ city, env !! "city" = Some (VString city)
          ∧ let c := getCityCoordinates node city in
            isSentinel c = true ∨ ∃ err, fetchWeather c.1 c.2 = inr err)
  ∧ (result.1.2 = None →
       ∃ city reading,
         env !! "city" = Some (VString city)
         ∧ fetchWeather (getCityCoordinates node city).1
                        (getCityCoordinates node city).2 = inl reading
         ∧ env_at result.2 vars = <["temperature" := VFloat reading]> env
         ∧ ExecutionStep.Output result.1.1 =
             Some (<["temperature" := VFloat reading]>
                     (<["location" := VString city]> ∅))).
Proof.
  intros env result. subst result. rewrite processIntegrationNode_run. fold env.
  rewrite <- as_string_None.
  destruct (as_string (index env "city")) as [city|] eqn:Hcity; cbn zeta.
  - apply as_string_index in Hcity.
    pose proof (env_at_live _ _ _ _ Hcity) as Hlive.
    destruct (isSentinel (getCityCoordinates node city)) eqn:Hs.
    + split; [|done]. split; [|done]. intros _. right. exists city. eauto.
    + destruct (fetchWeather _ _) as [reading|err] eqn:Hf.
      * split.
        -- split; [done|]. intros [?|(city' & Hc' & [?|[err Herr]])]; [done| |].
           ++ rewrite Hcity in Hc'. injection Hc' as <-. congruence.
           ++ rewrite Hcity in Hc'. injection Hc' as <-. congruence.
        -- intros _. exists city, reading. split; [done|]. split; [done|].
           split; [|done]. cbn -[map_assign]. by apply env_at_assign.
      * split; [|done]. split; [|done]. intros _. right. exists city.
        split; [done|]. right. eauto.
  - split; [|done]. split; [|done]. intros _. by left.
Qed.

(** ** Nodes by type and by id *)

Lemma findNodeByType_None (nodes : list Node.t) (t : string) :
  findNodeByType nodes t = None ↔ ∀ n, n ∈ nodes → Node.Type_ n ≠ t.
Proof.
  induction nodes as [|n nodes IH]; simpl.
  - split; [|done]. intros _ n Hn. by apply not_elem_of_nil in Hn.
  - destruct (String.eqb_spec (Node.Type_ n) t) as [Heq|Hne].
    + split; [done|]. intros H. destruct (H n); [left | done].
    + rewrite IH. split.
      * intros H n' Hn'. apply elem_of_cons in Hn' as [->|Hn']; auto.
      * intros H n' Hn'. apply H. by right.
Qed.

Lemma foldl_nodeMap_lookup (nodes : list Node.t) (acc : gmap string Node.t)
    (id : string) (n : Node.t) :
  foldl (λ nodeMap n, <[Node.ID n := n]> nodeMap) acc nodes !! id = Some n →
  acc !! id = Some n ∨ (n ∈ nodes ∧ Node.ID n = id).
Proof.
  revert acc. induction nodes as [|n0 nodes IH]; intros acc; simpl; [by left|].
  intros H. apply IH in H as [H|[H1 H2]].
  - destruct (decide (Node.ID n0 = id)) as [Heq|Hne].
    + rewrite <- Heq, lookup_insert_eq in H. injection H as Hn. subst n0.
      right. split; [left | done].
    + rewrite lookup_insert_ne in H by done. by left.
  - right. split; [by right | done].
Qed.

Lemma foldl_nodeMap_None (nodes : list Node.t) (acc : gmap string Node.t)
    (id : string) :
  foldl (λ nodeMap n, <[Node.ID n := n]> nodeMap) acc nodes !! id = None ↔
  acc !! id = None ∧ ∀ n, n ∈ nodes → Node.ID n ≠ id.
Proof.
  revert acc. induction nodes as [|n0 nodes IH]; intros acc; simpl.
  - split; [|by intros [? _]]. intros H. split; [done|].
    intros n Hn. by apply not_elem_of_nil in Hn.
  - rewrite IH. rewrite lookup_insert_None. split.
    + intros [[Hacc Hne] Hall]. split; [done|].
      intros n Hn. apply elem_of_cons in Hn as [->|Hn]; auto.
    + intros [Hacc Hall]. split; [split; [done|]|].
      * apply Hall. left.
      * intros n Hn. apply Hall. by right.
Qed.

Lemma buildNodeMap_Some (nodes : list Node.t) (id : string) (n : Node.t) :
  buildNodeMap nodes !! id = Some n → n ∈ nodes ∧ Node.ID n = id.
Proof.
  intros H. apply foldl_nodeMap_lookup in H as [H|H]; [|done].
  by rewrite lookup_empty in H.
Qed.

Lemma buildNodeMap_None (nodes : list Node.t) (id : string) :
  buildNodeMap nodes !! id = None ↔ ∀ n, n ∈ nodes → Node.ID n ≠ id.
Proof.
  unfold buildNodeMap. rewrite foldl_nodeMap_None, lookup_empty.
  split; [by intros [_ H] | by intros H].
Qed.

(** The id that edge resolution returns is empty or the target of an edge
    of the current node. *)
Lemma findNextNodeID_edge (edges : list Edge.t) (cur : string)
    (vars : gmap string Value) :
  findNextNodeID edges cur vars = ""
  ∨ ∃ e, e ∈ edges ∧ Edge.Source e = cur
         ∧ Edge.Target e = findNextNodeID edges cur vars.
Proof.
  induction edges as [|e edges IH]; [by left|].
  rewrite findNextNodeID_cons.
  destruct (edgeMatches cur vars e) eqn:Hm.
  - right. exists e. split; [left|]. split; [|done].
    unfold edgeMatches in Hm. apply andb_true_iff in Hm as [Hs _].
    by apply String.eqb_eq.
  - destruct IH as [IH|(e' & He' & Hs & Ht)]; [by left|].
    right. exists e'. split; [by right | done].
Qed.

(** C5. On a graph with no node of type "start", [Execute] returns at once,
    whatever the fuel: the status is "failed", the trace is the single step
    with node id "system", type "system" and the error "No start node found
    in workflow", no map has changed and the clock was read once. *)
Theorem Execute_no_start_node (now : nat → Time)
    (fetchWeather : float → float → float + string) (fuel : nat)
    (wf : Workflow.t) (inputs : loc) (w : World)
    (Hnone : ∀ n, n ∈ WorkflowGraph.Nodes (Workflow.Definition_ wf) →
                  Node.Type_ n ≠ "start") :
  ∃ r step,
    Execute now fetchWeather fuel wf inputs w
      = (Some r, mkWorld (heap w) (S (ticks w)))
    ∧ ExecutionResponse.Status r = "failed"
    ∧ ExecutionResponse.Steps r = [step]
    ∧ ExecutionStep.NodeID step = "system"
    ∧ ExecutionStep.Type_ step = "system"
    ∧ ExecutionStep.Status step = "failed"
    ∧ ExecutionStep.Error step = "No start node found in workflow".
Proof.
  apply findNodeByType_None in Hnone.
  unfold Execute, run. rewrite Hnone. unfold_M.
  eexists _, noStartStep. repeat split.
Qed.

Lemma Execute_no_start_node_witness :
  ∃ r step,
    Execute morning sunny 0 headlessWorkflow 0 (mkWorld [∅] 0)
      = (Some r, mkWorld [∅] 1)
    ∧ ExecutionResponse.Status r = "failed"
    ∧ ExecutionResponse.Steps r = [step]
    ∧ ExecutionStep.NodeID step = "system"
    ∧ ExecutionStep.Type_ step = "system"
    ∧ ExecutionStep.Status step = "failed"
    ∧ ExecutionStep.Error step = "No start node found in workflow".
Proof.
  apply (Execute_no_start_node morning sunny 0 headlessWorkflow 0 (mkWorld [∅] 0)).
  intros n Hn. apply list_elem_of_singleton in Hn as ->. discriminate.
Defined.

(** ** What a behaviour does to the step *)

Lemma processFormNode_keeps (node : Node.t) (vars : loc)
    (step : ExecutionStep.t) (w : World) :
  keepsStatus step (processFormNode node vars step w).1.
Proof.
  unfold processFormNode.
  destruct (as_slice _) as [fields|]; [|done].
  unfold_M. destruct (copyInputFields fields vars ∅ w) as [[output|err] w']; done.
Qed.

Lemma processIntegrationNode_keeps (fetchWeather : float → float → float + string)
    (node : Node.t) (vars : loc) (step : ExecutionStep.t) (w : World) :
  keepsStatus step (processIntegrationNode fetchWeather node vars step w).1.
Proof.
  rewrite processIntegrationNode_run. cbn zeta.
  destruct (as_string _); [|done]. destruct (isSentinel _); [done|].
  destruct (fetchWeather _ _); done.
Qed.

Lemma processConditionNode_keeps (vars : loc) (step : ExecutionStep.t) (w : World) :
  keepsStatus step (processConditionNode vars step w).1.
Proof.
  rewrite processConditionNode_run. cbn zeta.
  destruct (as_float64 _); [|done]. destruct (thresholdValue _); done.
Qed.

Lemma processEmailNode_keeps (now : nat → Time) (vars : loc)
    (step : ExecutionStep.t) (w : World) :
  keepsStatus step (processEmailNode now vars step w).1.
Proof.
  destruct (is_true_or_not (env_at w vars !! "conditionMet")) as [Hc|Hc].
  - rewrite processEmailNode_send by done. cbn zeta.
    destruct (as_string _); [|done]. destruct (as_float64 _); [|done].
    destruct (as_string _); done.
  - rewrite processEmailNode_skip by done. done.
Qed.

Lemma recordError_cases (status : string) (step : ExecutionStep.t)
    (r : ExecutionStep.t * option string) :
  keepsStatus step r →
  (failed (recordError status r).1 ∧ (recordError status r).2 = "failed")
  ∨ (ExecutionStep.Status (recordError status r).1 = ExecutionStep.Status step
     ∧ (recordError status r).2 = status).
Proof.
  intros [Hs _]. unfold recordError. destruct r as [step' [err|]]; simpl in *.
  - by left.
  - by right.
Qed.

(** After the switch the step has failed and so has the run, or the step
    has the status it came with and the overall status is unchanged. *)
Lemma dispatch_cases (now : nat → Time)
    (fetchWeather : float → float → float + string) (current : Node.t)
    (vars : loc) (step : ExecutionStep.t) (status : string) (w : World) :
  let r := (dispatch now fetchWeather current vars step status w).1 in
  (failed r.1 ∧ r.2 = "failed")
  ∨ (ExecutionStep.Status r.1 = ExecutionStep.Status step ∧ r.2 = status).
Proof.
  unfold dispatch. cbn zeta.
  destruct (String.eqb _ "start"); [by right|].
  destruct (String.eqb _ "form").
  { unfold_M. pose proof (processFormNode_keeps current vars step w) as H.
    destruct (processFormNode current vars step w) as [r w'].
    by apply recordError_cases. }
  destruct (String.eqb _ "integration").
  { unfold_M.
    pose proof (processIntegrationNode_keeps fetchWeather current vars step w) as H.
    destruct (processIntegrationNode fetchWeather current vars step w) as [r w'].
    by apply recordError_cases. }
  destruct (String.eqb _ "condition").
  { unfold_M. pose proof (processConditionNode_keeps vars step w) as H.
    destruct (processConditionNode vars step w) as [r w'].
    by apply recordError_cases. }
  destruct (String.eqb _ "email").
  { unfold_M. pose proof (processEmailNode_keeps now vars step w) as H.
    destruct (processEmailNode now vars step w) as [r w'].
    by apply recordError_cases. }
  destruct (String.eqb _ "end"); [by right | by left].
Qed.

(** ** One iteration of the loop *)

Lemma completed_not_failed (s : ExecutionStep.t) : completed s → ¬ failed s.
Proof. unfold completed, failed. intros -> H. discriminate. Qed.

(** The step of an iteration is appended to the trace; a failed step makes
    the iteration return with status "failed", a completed one leaves the
    status as it is. *)
Lemma loopBody_cases (now : nat → Time)
    (fetchWeather : float → float → float + string) (wf : Workflow.t)
    (nodeMap : gmap string Node.t) (vars : loc) (current : Node.t)
    (status : string) (steps : list ExecutionStep.t) (w : World) :
  ∃ step,
    match (loopBody now fetchWeather wf nodeMap vars current status steps w).1 with
    | Return r =>
        failed step ∧ ExecutionResponse.Status r = "failed"
        ∧ ExecutionResponse.Steps r = steps ++ [step]
    | Break status' steps' =>
        completed step ∧ status' = status ∧ steps' = steps ++ [step]
    | Next nextNode status' steps' =>
        completed step ∧ status' = status ∧ steps' = steps ++ [step]
        ∧ nodeMap !! findNextNodeID (WorkflowGraph.Edges (Workflow.Definition_ wf))
                       (Node.ID current)
                       (env_at (dispatch now fetchWeather current vars
                                  (newStep current) status w).2 vars)
          = Some nextNode
        ∧ findNextNodeID (WorkflowGraph.Edges (Workflow.Definition_ wf))
            (Node.ID current)
            (env_at (dispatch now fetchWeather current vars
                       (newStep current) status w).2 vars) ≠ ""
    end.
Proof.
  unfold loopBody.
  pose proof (dispatch_cases now fetchWeather current vars (newStep current) status w)
    as Hd. cbn zeta in Hd. unfold mbind at 1, M_bind at 1.
  destruct (dispatch now fetchWeather current vars (newStep current) status w)
    as [[step status'] w1]. simpl in Hd. exists step.
  destruct (String.eqb_spec (ExecutionStep.Status step) "failed") as [Hf|Hf].
  - unfold respond. unfold_M. simpl.
    destruct Hd as [[_ ->]|[Hc _]]; [done|].
    rewrite Hf in Hc. discriminate.
  - destruct Hd as [[Hd _]|[Hc ->]]; [done|].
    unfold_M. cbn [fst snd].
    destruct (String.eqb_spec
                (findNextNodeID (WorkflowGraph.Edges (Workflow.Definition_ wf))
                   (Node.ID current) (env_at w1 vars)) "") as [He|He]; [done|].
    destruct (nodeMap !! _) as [nextNode|] eqn:Hn; done.
Qed.

(** ** The walk *)

Lemma Forall_completed_snoc (steps : list ExecutionStep.t) (s : ExecutionStep.t) :
  Forall completed steps → completed s → Forall completed (steps ++ [s]).
Proof. intros H1 H2. apply Forall_app. by split; [|apply Forall_singleton]. Qed.

(** The response of a walk that began with status "completed" and a trace
    of completed steps. *)
Lemma walk_trace (now : nat → Time)
    (fetchWeather : float → float → float + string) (wf : Workflow.t)
    (nodeMap : gmap string Node.t) (vars : loc) (fuel : nat) :
  ∀ current steps w r w',
    Forall completed steps →
    walk now fetchWeather fuel wf nodeMap vars current "completed" steps w
      = (Some r, w') →
    (ExecutionResponse.Status r = "completed"
     ∧ Forall completed (ExecutionResponse.Steps r))
    ∨ (ExecutionResponse.Status r = "failed"
       ∧ ∃ before step, ExecutionResponse.Steps r = before ++ [step]
                        ∧ Forall completed before ∧ failed step).
Proof.
  induction fuel as [|fuel IH]; intros current steps w r w' Hsteps Hwalk;
    [discriminate|].
  simpl in Hwalk. unfold mbind at 1, M_bind at 1 in Hwalk.
  destruct (loopBody_cases now fetchWeather wf nodeMap vars current
              "completed" steps w) as [step Hcase].
  destruct (loopBody now fetchWeather wf nodeMap vars current "completed" steps w)
    as [[r0 | status' steps' | nextNode status' steps'] w1]; simpl in Hcase.
  - destruct Hcase as (Hf & Hst & Hs). injection Hwalk as <- <-.
    right. split; [done|]. eauto.
  - destruct Hcase as (Hc & -> & ->). unfold respond in Hwalk. unfold_M.
    injection Hwalk as <- <-. left. split; [done|].
    by apply Forall_completed_snoc.
  - destruct Hcase as (Hc & -> & -> & _).
    eapply IH; [|exact Hwalk]. by apply Forall_completed_snoc.
Qed.

(** On a graph whose edges decrease a rank, the walk returns as soon as the
    fuel exceeds the rank of the node it is at. *)
Lemma walk_returns (now : nat → Time)
    (fetchWeather : float → float → float + string) (wf : Workflow.t)
    (vars : loc) (rank : string → nat) :
  decreasing rank wf →
  ∀ fuel current status steps w,
    rank (Node.ID current) < fuel →
    ∃ r w',
      walk now fetchWeather fuel wf
        (buildNodeMap (WorkflowGraph.Nodes (Workflow.Definition_ wf)))
        vars current status steps w = (Some r, w').
Proof.
  intros Hrank fuel.
  induction fuel as [|fuel IH]; intros current status steps w Hlt; [lia|].
  simpl. unfold mbind at 1, M_bind at 1.
  destruct (loopBody_cases now fetchWeather wf
              (buildNodeMap (WorkflowGraph.Nodes (Workflow.Definition_ wf)))
              vars current status steps w) as [step Hcase].
  destruct (loopBody _ _ _ _ _ _ _ _ w)
    as [[r0 | status' steps' | nextNode status' steps'] w1]; simpl in Hcase.
  - by eexists _, _.
  - unfold respond. unfold_M. by eexists _, _.
  - destruct Hcase as (_ & _ & _ & Hn & Hne). apply IH.
    apply buildNodeMap_Some in Hn as [_ Hid].
    destruct (findNextNodeID_edge (WorkflowGraph.Edges (Workflow.Definition_ wf))
                (Node.ID current)
                (env_at (dispatch now fetchWeather current vars
                           (newStep current) status w).2 vars))
      as [He|(e & He & Hs & Ht)]; [done|].
    specialize (Hrank e He). rewrite Hs, Ht, <- Hid in Hrank. lia.
Qed.

(** More fuel does not change a response. *)
Lemma walk_more_fuel (now : nat → Time)
    (fetchWeather : float → float → float + string) (wf : Workflow.t)
    (nodeMap : gmap string Node.t) (vars : loc) (fuel extra : nat) :
  ∀ current status steps w r w',
    walk now fetchWeather fuel wf nodeMap vars current status steps w = (Some r, w') →
    walk now fetchWeather (fuel + extra) wf nodeMap vars current status steps w
      = (Some r, w').
Proof.
  induction fuel as [|fuel IH]; intros current status steps w r w' Hwalk;
    [discriminate|].
  simpl in *. unfold mbind at 1, M_bind at 1 in Hwalk.
  unfold mbind at 1, M_bind at 1.
  destruct (loopBody _ _ _ _ _ _ _ _ w) as [[r0 | ? ? | ? ? ?] w1]; try done.
  by apply IH.
Qed.

(** ** The status of a response and its trace *)

Lemma run_trace (now : nat → Time)
    (fetchWeather : float → float → float + string) (fuel : nat)
    (wf : Workflow.t) (vars : loc) (w : World) (r : ExecutionResponse.t)
    (w' : World) :
  run now fetchWeather fuel wf vars w = (Some r, w') →
  (ExecutionResponse.Status r = "completed"
   ∧ Forall completed (ExecutionResponse.Steps r))
  ∨ (ExecutionResponse.Status r = "failed"
     ∧ ∃ before step, ExecutionResponse.Steps r = before ++ [step]
                      ∧ Forall completed before ∧ failed step).
Proof.
  unfold run.
  destruct (findNodeByType _ "start") as [start|].
  - apply walk_trace. constructor.
  - unfold_M. intros [= <- <-]. right. split; [done|].
    exists [], noStartStep. done.
Qed.

Lemma run_returns (now : nat → Time)
    (fetchWeather : float → float → float + string) (wf : Workflow.t)
    (vars : loc) (w : World) (rank : string → nat) :
  decreasing rank wf →
  ∃ fuel r w', run now fetchWeather fuel wf vars w = (Some r, w').
Proof.
  intros Hrank. unfold run.
  destruct (findNodeByType _ "start") as [start|].
  - exists (S (rank (Node.ID start))).
    apply (walk_returns now fetchWeather wf vars rank Hrank). lia.
  - exists 0. unfold_M. by eexists _, _.
Qed.

(** The two shapes of a trace, in the words of the specification. *)
Lemma trace_shape (status : string) (steps : list ExecutionStep.t) :
  (status = "completed" ∧ Forall completed steps)
  ∨ (status = "failed"
     ∧ ∃ before step, steps = before ++ [step]
                      ∧ Forall completed before ∧ failed step) →
  (status = "completed" ↔ Forall completed steps)
  ∧ (status = "failed" ↔ Exists failed steps)
  ∧ (∀ i step, steps !! i = Some step → failed step → S i = length steps).
Proof.
  intros [[-> Hall]|(-> & before & last & -> & Hall & Hlast)].
  - split; [done|]. split.
    + split; [done|]. intros Hex. apply Exists_exists in Hex as (s & Hs & Hf).
      rewrite Forall_forall in Hall. by apply completed_not_failed in Hf; auto.
    + intros i step Hi Hf. apply list_elem_of_lookup_2 in Hi.
      rewrite Forall_forall in Hall. by apply completed_not_failed in Hf; auto.
  - split; [|split].
    + split; [done|]. intros Hall'. apply Forall_app in Hall' as [_ Hl].
      rewrite Forall_singleton in Hl. by apply completed_not_failed in Hl.
    + split; [|done]. intros _. apply Exists_app. right. by constructor.
    + intros i step Hi Hf. rewrite length_app. simpl.
      destruct (decide (i < length before)) as [Hlt|Hge].
      * rewrite lookup_app_l in Hi by done.
        apply list_elem_of_lookup_2 in Hi. rewrite Forall_forall in Hall.
        by apply completed_not_failed in Hf; auto.
      * apply lookup_lt_Some in Hi. rewrite length_app in Hi. simpl in Hi. lia.
Qed.

(** C1. On a graph whose edges decrease a rank, [Execute] returns a
    response. Whenever it returns one, the overall status is "completed"
    exactly when every step of the trace is completed and "failed" exactly
    when a step of the trace failed, and a failed step is the last step of
    the trace: the walk stopped there and no later step is present. *)
Theorem Execute_status_reflects_trace (now : nat → Time)
    (fetchWeather : float → float → float + string)
    (wf : Workflow.t) (inputs : loc) (w : World) :
  (∀ rank, decreasing rank wf →
     ∃ fuel r w', Execute now fetchWeather fuel wf inputs w = (Some r, w'))
  ∧ (∀ fuel r w',
       Execute now fetchWeather fuel wf inputs w = (Some r, w') →
       (ExecutionResponse.Status r = "completed"
        ↔ Forall completed (ExecutionResponse.Steps r))
       ∧ (ExecutionResponse.Status r = "failed"
          ↔ Exists failed (ExecutionResponse.Steps r))
       ∧ (∀ i step, ExecutionResponse.Steps r !! i = Some step → failed step →
                    S i = length (ExecutionResponse.Steps r))).
Proof.
  split.
  - intros rank Hrank. by apply (run_returns now fetchWeather wf inputs w rank).
  - intros fuel r w' Hrun. apply trace_shape. by eapply run_trace.
Qed.

Lemma alertRank_decreasing : decreasing alertRank alertWorkflow.
Proof.
  intros e He. simpl in He.
  repeat (apply elem_of_cons in He as [->|He]; [vm_compute; lia|]).
  by apply not_elem_of_nil in He.
Qed.

Lemma Execute_status_reflects_trace_witness :
  (∃ fuel r w',
     Execute morning sunny fuel alertWorkflow 0 (mkWorld [hotDay] 0) = (Some r, w'))
  ∧ ∃ r w',
      Execute morning sunny 4 alertWorkflow 0 (mkWorld [hotDay] 0) = (Some r, w')
      ∧ (ExecutionResponse.Status r = "completed"
         ↔ Forall completed (ExecutionResponse.Steps r))
      ∧ (ExecutionResponse.Status r = "failed"
         ↔ Exists failed (ExecutionResponse.Steps r))
      ∧ (∀ i step, ExecutionResponse.Steps r !! i = Some step → failed step →
                   S i = length (ExecutionResponse.Steps r)).
Proof.
  pose proof (Execute_status_reflects_trace morning sunny alertWorkflow 0
                (mkWorld [hotDay] 0)) as [Hreturns Hshape].
  split.
  - exact (Hreturns alertRank alertRank_decreasing).
  - destruct (Execute morning sunny 4 alertWorkflow 0 (mkWorld [hotDay] 0))
      as [[r|] w'] eqn:Hrun.
    + exists r, w'. split; [reflexivity|]. exact (Hshape 4 r w' Hrun).
    + vm_compute in Hrun. discriminate Hrun.
Defined.

(** ** Broken edges *)

Lemma iterates_status (now : nat → Time)
    (fetchWeather : float → float → float + string) (wf : Workflow.t)
    (vars : loc) (a b : LoopState) :
  rtc (iterates now fetchWeather wf vars) a b → atStatus b = atStatus a.
Proof.
  induction 1 as [|a b c Hab _ IH]; [done|].
  rewrite IH. unfold iterates in Hab.
  destruct (loopBody_cases now fetchWeather wf
              (buildNodeMap (WorkflowGraph.Nodes (Workflow.Definition_ wf)))
              vars (atNode a) (atStatus a) (atSteps a) (atWorld a)) as [step Hc].
  rewrite Hab in Hc. simpl in Hc. by destruct Hc as (_ & -> & _).
Qed.

(** A response of the walk from a later head of the loop is a response of
    the walk from an earlier one. *)
Lemma walk_from_iterates (now : nat → Time)
    (fetchWeather : float → float → float + string) (wf : Workflow.t)
    (vars : loc) (a b : LoopState) (result : option ExecutionResponse.t * World) :
  rtc (iterates now fetchWeather wf vars) a b →
  (∃ fuel,
     walk now fetchWeather fuel wf
       (buildNodeMap (WorkflowGraph.Nodes (Workflow.Definition_ wf))) vars
       (atNode b) (atStatus b) (atSteps b) (atWorld b) = result
     ∧ is_Some result.1) →
  ∃ fuel,
    walk now fetchWeather fuel wf
      (buildNodeMap (WorkflowGraph.Nodes (Workflow.Definition_ wf))) vars
      (atNode a) (atStatus a) (atSteps a) (atWorld a) = result
    ∧ is_Some result.1.
Proof.
  induction 1 as [|a b c Hab _ IH]; [done|].
  intros Hc. destruct (IH Hc) as (fuel & Hwalk & Hsome).
  exists (S fuel). split; [|done]. simpl.
  unfold mbind at 1, M_bind at 1. unfold iterates in Hab. by rewrite Hab.
Qed.

(** C9. Take an execution that has reached, from the start node, the head
    of an iteration whose step does not fail, and let edge resolution then
    yield an id that no node of the graph has. Then [Execute] returns, with
    status "completed" and, as its trace, the steps so far followed by this
    step. *)
Theorem Execute_broken_edge_completes (now : nat → Time)
    (fetchWeather : float → float → float + string) (wf : Workflow.t)
    (inputs : loc) (w : World) (start : Node.t) (here : LoopState)
    (step : ExecutionStep.t) (status' : string) (w2 : World) :
  let graph := Workflow.Definition_ wf in
  findNodeByType (WorkflowGraph.Nodes graph) "start" = Some start →
  rtc (iterates now fetchWeather wf inputs)
      (mkLoopState start "completed" [] w) here →
  dispatch now fetchWeather (atNode here) inputs (newStep (atNode here))
    (atStatus here) (atWorld here) = ((step, status'), w2) →
  ¬ failed step →
  (∀ n, n ∈ WorkflowGraph.Nodes graph →
        Node.ID n ≠ findNextNodeID (WorkflowGraph.Edges graph)
                      (Node.ID (atNode here)) (env_at w2 inputs)) →
  ∃ fuel,
    Execute now fetchWeather fuel wf inputs w
    = (Some (ExecutionResponse.mk (format_RFC3339 (now (ticks w2))) "completed"
               (atSteps here ++ [step])),
       mkWorld (heap w2) (S (ticks w2))).
Proof.
  intros graph Hstart Hreach Hdispatch Hok Hmissing.
  pose proof (iterates_status _ _ _ _ _ _ Hreach) as Hstatus. simpl in Hstatus.
  apply buildNodeMap_None in Hmissing.
  pose proof (dispatch_cases now fetchWeather (atNode here) inputs
                (newStep (atNode here)) (atStatus here) (atWorld here)) as Hd.
  rewrite Hdispatch in Hd. simpl in Hd.
  destruct Hd as [[Hf _]|[_ ->]]; [done|].
  unfold Execute, run. fold graph. rewrite Hstart.
  destruct (walk_from_iterates now fetchWeather wf inputs _ here
              (Some (ExecutionResponse.mk (format_RFC3339 (now (ticks w2)))
                       "completed" (atSteps here ++ [step])),
               mkWorld (heap w2) (S (ticks w2))) Hreach) as (fuel & Hwalk & _);
    [|by exists fuel].
  exists 1. split; [|by eexists]. simpl.
  unfold mbind at 1, M_bind at 1. unfold loopBody.
  unfold mbind at 1, M_bind at 1. rewrite Hdispatch.
  apply String.eqb_neq in Hok. rewrite Hok. unfold_M. cbn [fst snd].
  fold graph. rewrite Hmissing, Hstatus.
  by destruct (String.eqb _ "").
Qed.

Lemma Execute_broken_edge_completes_witness :
  let w := mkWorld [callerInputs] 0 in
  let here := mkLoopState conditionNode "completed" [newStep startNode] w in
  let after := dispatch morning sunny conditionNode 0 (newStep conditionNode)
                 "completed" w in
  findNextNodeID (WorkflowGraph.Edges (Workflow.Definition_ danglingWorkflow))
    "condition" (env_at after.2 0) = "ghost"
  ∧ ∃ fuel,
      Execute morning sunny fuel danglingWorkflow 0 w
      = (Some (ExecutionResponse.mk (format_RFC3339 (morning 0)) "completed"
                 ([newStep startNode] ++ [after.1.1])),
         mkWorld (heap after.2) 1).
Proof.
  intros w here after. split; [reflexivity|].
  apply (Execute_broken_edge_completes morning sunny danglingWorkflow 0 w
           startNode here after.1.1 after.1.2 after.2).
  - reflexivity.
  - apply rtc_once. reflexivity.
  - reflexivity.
  - discriminate.
  - intros n Hn. simpl in Hn.
    repeat (apply elem_of_cons in Hn as [->|Hn]; [discriminate|]).
    by apply not_elem_of_nil in Hn.
Defined.

(** ** The maps an execution writes to *)

Lemma writesOnly_ret {A : Type} (vars : loc) (a : A) : writesOnly vars (mret a).
Proof. done. Qed.

Lemma writesOnly_bind {A B : Type} (vars : loc) (c : M A) (k : A → M B) :
  writesOnly vars c → (∀ a, writesOnly vars (k a)) → writesOnly vars (c ≫= k).
Proof.
  intros Hc Hk w m Hm. unfold mbind, M_bind.
  specialize (Hc w m Hm). destruct (c w) as [a w1]. simpl in Hc.
  by rewrite Hk.
Qed.

Lemma writesOnly_map_index (vars m : loc) (k : string) :
  writesOnly vars (map_index m k).
Proof. done. Qed.

Lemma writesOnly_map_lookup (vars m : loc) (k : string) :
  writesOnly vars (map_lookup m k).
Proof. done. Qed.

Lemma writesOnly_map_snapshot (vars m : loc) : writesOnly vars (map_snapshot m).
Proof. done. Qed.

Lemma writesOnly_map_assign (vars : loc) (k : string) (v : Value) :
  writesOnly vars (map_assign vars k v).
Proof. intros w m Hm. simpl. by rewrite list_lookup_alter_ne. Qed.

Lemma writesOnly_time_Now (now : nat → Time) (vars : loc) :
  writesOnly vars (time_Now now).
Proof. done. Qed.

Create HintDb frame.

#[local] Hint Resolve writesOnly_ret writesOnly_map_index writesOnly_map_lookup
  writesOnly_map_snapshot writesOnly_map_assign writesOnly_time_Now : frame.

Ltac frame :=
  repeat first
    [ progress eauto with frame
    | apply writesOnly_bind; [|intros ?]
    | match goal with
      | |- writesOnly _ (match ?x with _ => _ end) => destruct x
      | |- writesOnly _ (let '(_, _) := ?x in _) => destruct x
      end ].

Lemma writesOnly_copyInputFields (fields : list Value) (vars : loc) :
  ∀ output, writesOnly vars (copyInputFields fields vars output).
Proof. induction fields as [|field fields IH]; intros output; simpl; frame. Qed.

#[local] Hint Resolve writesOnly_copyInputFields : frame.

Lemma writesOnly_processFormNode (node : Node.t) (vars : loc) (step : ExecutionStep.t) :
  writesOnly vars (processFormNode node vars step).
Proof. unfold processFormNode. frame. Qed.

Lemma writesOnly_processIntegrationNode
    (fetchWeather : float → float → float + string) (node : Node.t)
    (vars : loc) (step : ExecutionStep.t) :
  writesOnly vars (processIntegrationNode fetchWeather node vars step).
Proof. unfold processIntegrationNode. frame. Qed.

Lemma writesOnly_processConditionNode (vars : loc) (step : ExecutionStep.t) :
  writesOnly vars (processConditionNode vars step).
Proof. unfold processConditionNode. frame. Qed.

Lemma writesOnly_processEmailNode (now : nat → Time) (vars : loc)
    (step : ExecutionStep.t) :
  writesOnly vars (processEmailNode now vars step).
Proof. unfold processEmailNode. frame. Qed.

#[local] Hint Resolve writesOnly_processFormNode writesOnly_processIntegrationNode
  writesOnly_processConditionNode writesOnly_processEmailNode : frame.

Lemma writesOnly_dispatch (now : nat → Time)
    (fetchWeather : float → float → float + string) (current : Node.t)
    (vars : loc) (step : ExecutionStep.t) (status : string) :
  writesOnly vars (dispatch now fetchWeather current vars step status).
Proof. unfold dispatch. cbn zeta. frame. Qed.

Lemma writesOnly_respond (now : nat → Time) (vars : loc) (status : string)
    (steps : list ExecutionStep.t) :
  writesOnly vars (respond now status steps).
Proof. unfold respond. frame. Qed.

#[local] Hint Resolve writesOnly_dispatch writesOnly_respond : frame.

Lemma writesOnly_loopBody (now : nat → Time)
    (fetchWeather : float → float → float + string) (wf : Workflow.t)
    (nodeMap : gmap string Node.t) (vars : loc) (current : Node.t)
    (status : string) (steps : list ExecutionStep.t) :
  writesOnly vars (loopBody now fetchWeather wf nodeMap vars current status steps).
Proof. unfold loopBody. frame. Qed.

#[local] Hint Resolve writesOnly_loopBody : frame.

Lemma writesOnly_walk (now : nat → Time)
    (fetchWeather : float → float → float + string) (wf : Workflow.t)
    (nodeMap : gmap string Node.t) (vars : loc) (fuel : nat) :
  ∀ current status steps,
    writesOnly vars (walk now fetchWeather fuel wf nodeMap vars current status steps).
Proof. induction fuel as [|fuel IH]; intros current status steps; simpl; frame. Qed.

#[local] Hint Resolve writesOnly_walk : frame.

Lemma writesOnly_run (now : nat → Time)
    (fetchWeather : float → float → float + string) (fuel : nat)
    (wf : Workflow.t) (vars : loc) :
  writesOnly vars (run now fetchWeather fuel wf vars).
Proof. unfold run. cbn zeta. frame. Qed.

Lemma writesOnly_copyEntries_loop (vars : loc) (entries : list (string * Value)) :
  writesOnly vars
    (foldr (λ kv rest, map_assign vars kv.1 kv.2;; rest) (mret tt) entries).
Proof. induction entries as [|kv entries IH]; simpl; frame. Qed.

Lemma writesOnly_copyEntries (inputs vars : loc) :
  writesOnly vars (copyEntries inputs vars).
Proof.
  unfold copyEntries. apply writesOnly_bind; [done|].
  intros entries. apply writesOnly_copyEntries_loop.
Qed.

(** ** The map of the caller *)

Lemma foldl_insert_union (entries : list (string * Value)) :
  ∀ acc : gmap string Value,
    NoDup entries.*1 →
    foldl (λ acc kv, <[kv.1 := kv.2]> acc) acc entries
    = list_to_map entries ∪ acc.
Proof.
  induction entries as [|[k v] entries IH]; intros acc Hnd.
  - simpl. by rewrite (left_id_L ∅ (∪)).
  - rewrite fmap_cons in Hnd. apply NoDup_cons in Hnd as [Hk Hnd].
    cbn [foldl]. rewrite IH by done. rewrite list_to_map_cons.
    rewrite <- insert_union_l. symmetry. apply insert_union_r.
    by apply not_elem_of_list_to_map_1.
Qed.

Lemma copyEntries_loop_run (vars : loc) (entries : list (string * Value)) :
  ∀ w env,
    heap w !! vars = Some env →
    heap (foldr (λ kv rest, map_assign vars kv.1 kv.2;; rest) (mret tt) entries w).2
      !! vars
    = Some (foldl (λ acc kv, <[kv.1 := kv.2]> acc) env entries).
Proof.
  induction entries as [|kv entries IH]; intros w env Hlive; simpl; [done|].
  unfold mbind at 1, M_bind at 1. unfold map_assign at 1.
  apply IH. simpl. by rewrite list_lookup_alter_eq, Hlive.
Qed.

(** After [make] and the copying loop, [vars] is a new map with the
    contents of [inputs]. *)
Lemma copyEntries_copies (inputs : loc) (w : World) :
  inputs < length (heap w) →
  let vars := length (heap w) in
  let w' := (copyEntries inputs vars (make_map w).2).2 in
  env_at w' vars = env_at w inputs ∧ heap w' !! inputs = heap w !! inputs.
Proof.
  intros Hlt vars w'. subst w'. split.
  - unfold copyEntries. unfold mbind at 1, M_bind at 1. unfold map_snapshot.
    unfold env_at at 1.
    rewrite (copyEntries_loop_run vars _ _ ∅).
    + simpl. rewrite foldl_insert_union by apply NoDup_fst_map_to_list.
      rewrite list_to_map_to_list, (right_id_L ∅ (∪)).
      unfold env_at, make_map. simpl. by rewrite lookup_app_l.
    + unfold make_map. simpl. rewrite lookup_app_r by done.
      by rewrite Nat.sub_diag.
  - rewrite writesOnly_copyEntries by (subst vars; lia).
    unfold make_map. simpl. by rewrite lookup_app_l.
Qed.

(** The second text of [Execute] leaves the map of the caller as it was. *)
Lemma ExecuteCopy_preserves_inputs (now : nat → Time)
    (fetchWeather : float → float → float + string) (fuel : nat)
    (wf : Workflow.t) (inputs : loc) (w : World) :
  inputs < length (heap w) →
  heap (ExecuteCopy now fetchWeather fuel wf inputs w).2 !! inputs
  = heap w !! inputs.
Proof.
  intros Hlt. unfold ExecuteCopy.
  unfold mbind at 1, M_bind at 1. unfold make_map at 1.
  unfold mbind at 1, M_bind at 1.
  pose proof (copyEntries_copies inputs w Hlt) as [_ Hframe]. cbn zeta in Hframe.
  unfold make_map in Hframe. simpl in Hframe.
  destruct (copyEntries inputs (length (heap w)) _) as [[] w1]. simpl in Hframe.
  rewrite writesOnly_run by lia. done.
Qed.

(** C3. The first text of [Execute] hands the behaviours the map of the
    caller. On the graph start, condition with temperature 30 and threshold
    25 the call completes, and the map of the caller, which had no
    [conditionMet] before the call, holds [conditionMet = true] after it. *)
Lemma Execute_writes_caller_inputs :
  let w := mkWorld [callerInputs] 0 in
  let result := Execute morning sunny 3 conditionWorkflow 0 w in
  env_at w 0 !! "conditionMet" = None
  ∧ statusOf result.1 = Some "completed"
  ∧ env_at result.2 0 = <["conditionMet" := VBool true]> callerInputs
  ∧ env_at result.2 0 ≠ env_at w 0.
Proof.
  split; [reflexivity|]. split; [reflexivity|]. split; [reflexivity|].
  intros H. apply (f_equal (λ m, m !! "conditionMet")) in H.
  vm_compute in H. discriminate H.
Qed.

Lemma ExecuteCopy_keeps_caller_inputs :
  let w := mkWorld [callerInputs] 0 in
  let result := ExecuteCopy morning sunny 3 conditionWorkflow 0 w in
  statusOf result.1 = Some "completed"
  ∧ env_at result.2 0 = callerInputs
  ∧ env_at result.2 1 = <["conditionMet" := VBool true]> callerInputs.
Proof. repeat split; reflexivity. Qed.

(** ** Two executions under different clocks *)

Lemma coupled_ret {A B : Type} (R : A → B → Prop) (a : A) (b : B) :
  R a b → coupled R (mret a) (mret b).
Proof. intros HR w1 w2 Hw. done. Qed.

Lemma coupled_bind {A B A' B' : Type} (R : A → B → Prop) (S : A' → B' → Prop)
    (c1 : M A) (c2 : M B) (k1 : A → M A') (k2 : B → M B') :
  coupled R c1 c2 →
  (∀ a b, R a b → coupled S (k1 a) (k2 b)) →
  coupled S (c1 ≫= k1) (c2 ≫= k2).
Proof.
  intros Hc Hk w1 w2 Hw. unfold mbind, M_bind.
  destruct (Hc w1 w2 Hw) as [HR Hh].
  destruct (c1 w1) as [a w1'], (c2 w2) as [b w2']. simpl in *.
  by apply Hk.
Qed.

Lemma env_at_heap (w1 w2 : World) (m : loc) :
  heap w1 = heap w2 → env_at w1 m = env_at w2 m.
Proof. unfold env_at. by intros ->. Qed.

Lemma coupled_map_index (m : loc) (k : string) :
  coupled eq (map_index m k) (map_index m k).
Proof. intros w1 w2 Hw. unfold map_index. simpl. by rewrite (env_at_heap w1 w2). Qed.

Lemma coupled_map_lookup (m : loc) (k : string) :
  coupled eq (map_lookup m k) (map_lookup m k).
Proof. intros w1 w2 Hw. unfold map_lookup. simpl. by rewrite (env_at_heap w1 w2). Qed.

Lemma coupled_map_snapshot (m : loc) :
  coupled eq (map_snapshot m) (map_snapshot m).
Proof. intros w1 w2 Hw. unfold map_snapshot. simpl. by rewrite (env_at_heap w1 w2). Qed.

Lemma coupled_map_assign (m : loc) (k : string) (v : Value) :
  coupled eq (map_assign m k v) (map_assign m k v).
Proof. intros w1 w2 Hw. unfold map_assign. simpl. by rewrite Hw. Qed.

Lemma coupled_time_Now (now1 now2 : nat → Time) :
  coupled (λ _ _, True) (time_Now now1) (time_Now now2).
Proof. intros w1 w2 Hw. done. Qed.

Create HintDb clocks.

#[local] Hint Resolve coupled_map_index coupled_map_lookup coupled_map_snapshot
  coupled_map_assign : clocks.

(** Both sides run the same code on equal intermediate results. *)
Ltac couple :=
  repeat first
    [ progress eauto with clocks
    | apply coupled_ret; done
    | eapply coupled_bind; [solve [eauto with clocks]|intros ? ? <-]
    | match goal with
      | |- coupled _ (match ?x with _ => _ end) _ => destruct x
      | |- coupled _ (let '(_, _) := ?x in _) _ => destruct x
      end ].

Lemma coupled_copyInputFields (fields : list Value) (vars : loc) :
  ∀ output,
    coupled eq (copyInputFields fields vars output)
               (copyInputFields fields vars output).
Proof. induction fields as [|field fields IH]; intros output; simpl; couple. Qed.

#[local] Hint Resolve coupled_copyInputFields : clocks.

Lemma coupled_processFormNode (node : Node.t) (vars : loc) (step : ExecutionStep.t) :
  coupled eq (processFormNode node vars step) (processFormNode node vars step).
Proof. unfold processFormNode. couple. Qed.

Lemma coupled_processIntegrationNode
    (fetchWeather : float → float → float + string) (node : Node.t)
    (vars : loc) (step : ExecutionStep.t) :
  coupled eq (processIntegrationNode fetchWeather node vars step)
             (processIntegrationNode fetchWeather node vars step).
Proof. unfold processIntegrationNode. couple. Qed.

Lemma coupled_processConditionNode (vars : loc) (step : ExecutionStep.t) :
  coupled eq (processConditionNode vars step) (processConditionNode vars step).
Proof. unfold processConditionNode. couple. Qed.

Lemma timeless_Status (s : ExecutionStep.t) :
  ExecutionStep.Status (timeless s) = ExecutionStep.Status s.
Proof. unfold timeless. by destruct (String.eqb _ _). Qed.

Lemma timeless_fail (err : string) (s : ExecutionStep.t) :
  timeless (ExecutionStep.fail err s) = ExecutionStep.fail err (timeless s).
Proof. unfold timeless. simpl. by destruct (String.eqb _ _). Qed.

(** The two outputs of a sent email agree once the readings of the clock
    are taken out. *)
Lemma timeless_sent (step : ExecutionStep.t) (email body stamp1 stamp2 id1 id2 : string) :
  ExecutionStep.Type_ step = "email" →
  timeless
    (ExecutionStep.set_Output
       (<["emailDraft" :=
            VMap (<["to" := VString email]>
                    (<["from" := VString "weather-alerts@example.com"]>
                       (<["subject" := VString "Weather Alert"]>
                          (<["body" := VString body]>
                             (<["timestamp" := VString stamp1]> ∅)))))]>
          (<["deliveryStatus" := VString "sent"]>
             (<["messageId" := VString id1]>
                (<["emailSent" := VBool true]> ∅)))) step)
  = timeless
      (ExecutionStep.set_Output
         (<["emailDraft" :=
              VMap (<["to" := VString email]>
                      (<["from" := VString "weather-alerts@example.com"]>
                         (<["subject" := VString "Weather Alert"]>
                            (<["body" := VString body]>
                               (<["timestamp" := VString stamp2]> ∅)))))]>
            (<["deliveryStatus" := VString "sent"]>
               (<["messageId" := VString id2]>
                  (<["emailSent" := VBool true]> ∅)))) step).
Proof.
  intros Htype. unfold timeless. simpl. rewrite Htype. reflexivity.
Qed.

Lemma coupled_processEmailNode (now1 now2 : nat → Time) (vars : loc)
    (step : ExecutionStep.t) :
  ExecutionStep.Type_ step = "email" →
  coupled sameOutcome (processEmailNode now1 vars step)
                      (processEmailNode now2 vars step).
Proof.
  intros Htype w1 w2 Hw.
  pose proof (env_at_heap w1 w2 vars Hw) as Henv.
  destruct (is_true_or_not (env_at w1 vars !! "conditionMet")) as [Hc|Hc].
  - rewrite (processEmailNode_send now1) by done.
    rewrite (processEmailNode_send now2) by (by rewrite <- Henv).
    cbn zeta. rewrite <- Henv.
    destruct (as_string _); [|done]. destruct (as_float64 _); [|done].
    destruct (as_string _); [|done]. simpl. split; [|done].
    split; [|done]. simpl. by apply timeless_sent.
  - rewrite (processEmailNode_skip now1) by done.
    rewrite (processEmailNode_skip now2) by (by rewrite <- Henv).
    done.
Qed.

Lemma recordError_same (status : string) (r1 r2 : ExecutionStep.t * option string) :
  sameOutcome r1 r2 → sameStep (recordError status r1) (recordError status r2).
Proof.
  destruct r1 as [s1 e1], r2 as [s2 e2]. intros [Hs He]. simpl in *. subst e2.
  unfold recordError. simpl. destruct e1 as [err|]; split; simpl; try done.
  by rewrite !timeless_fail, Hs.
Qed.

Lemma coupled_dispatch (now1 now2 : nat → Time)
    (fetchWeather : float → float → float + string) (current : Node.t)
    (vars : loc) (status : string) :
  coupled sameStep
    (dispatch now1 fetchWeather current vars (newStep current) status)
    (dispatch now2 fetchWeather current vars (newStep current) status).
Proof.
  unfold dispatch. cbn zeta.
  destruct (String.eqb _ "start"); [by apply coupled_ret|].
  destruct (String.eqb _ "form").
  { eapply coupled_bind; [apply coupled_processFormNode|].
    intros r ? <-. by apply coupled_ret. }
  destruct (String.eqb _ "integration").
  { eapply coupled_bind; [apply coupled_processIntegrationNode|].
    intros r ? <-. by apply coupled_ret. }
  destruct (String.eqb _ "condition").
  { eapply coupled_bind; [apply coupled_processConditionNode|].
    intros r ? <-. by apply coupled_ret. }
  destruct (String.eqb_spec (Node.Type_ current) "email") as [Htype|_].
  { eapply coupled_bind; [by apply coupled_processEmailNode|].
    intros r1 r2 Hr. apply coupled_ret. by apply recordError_same. }
  destruct (String.eqb _ "end"); by apply coupled_ret.
Qed.

Lemma sameTrace_snoc (steps1 steps2 : list ExecutionStep.t)
    (step1 step2 : ExecutionStep.t) :
  sameTrace steps1 steps2 → timeless step1 = timeless step2 →
  sameTrace (steps1 ++ [step1]) (steps2 ++ [step2]).
Proof.
  unfold sameTrace. intros Hs Ht. rewrite !fmap_app. simpl. by rewrite Hs, Ht.
Qed.

Lemma coupled_respond (now1 now2 : nat → Time) (status : string)
    (steps1 steps2 : list ExecutionStep.t) :
  sameTrace steps1 steps2 →
  coupled (λ r1 r2, agree (Some r1) (Some r2))
    (respond now1 status steps1) (respond now2 status steps2).
Proof. intros Hs w1 w2 Hw. done. Qed.

Lemma coupled_loopBody (now1 now2 : nat → Time)
    (fetchWeather : float → float → float + string) (wf : Workflow.t)
    (nodeMap : gmap string Node.t) (vars : loc) (current : Node.t)
    (status : string) (steps1 steps2 : list ExecutionStep.t) :
  sameTrace steps1 steps2 →
  coupled sameIteration
    (loopBody now1 fetchWeather wf nodeMap vars current status steps1)
    (loopBody now2 fetchWeather wf nodeMap vars current status steps2).
Proof.
  intros Hs. unfold loopBody.
  eapply coupled_bind; [apply coupled_dispatch|].
  intros [step1 status1] [step2 status2] [Ht Hst]. simpl in Ht, Hst. subst status2.
  assert (ExecutionStep.Status step1 = ExecutionStep.Status step2) as Hstatus.
  { by rewrite <- (timeless_Status step1), Ht, timeless_Status. }
  rewrite Hstatus.
  pose proof (sameTrace_snoc _ _ _ _ Hs Ht) as Hs'.
  destruct (String.eqb (ExecutionStep.Status step2) "failed").
  - eapply coupled_bind; [by apply coupled_respond|].
    intros r1 r2 Hr. by apply coupled_ret.
  - eapply coupled_bind; [apply coupled_map_snapshot|].
    intros env ? <-.
    destruct (String.eqb _ ""); [by apply coupled_ret|].
    destruct (nodeMap !! _); by apply coupled_ret.
Qed.

Lemma coupled_walk (now1 now2 : nat → Time)
    (fetchWeather : float → float → float + string) (wf : Workflow.t)
    (nodeMap : gmap string Node.t) (vars : loc) (fuel : nat) :
  ∀ current status steps1 steps2,
    sameTrace steps1 steps2 →
    coupled agree
      (walk now1 fetchWeather fuel wf nodeMap vars current status steps1)
      (walk now2 fetchWeather fuel wf nodeMap vars current status steps2).
Proof.
  induction fuel as [|fuel IH]; intros current status steps1 steps2 Hs; simpl.
  - by apply coupled_ret.
  - eapply coupled_bind; [by apply coupled_loopBody|].
    intros [r1|st1 s1|n1 st1 s1] [r2|st2 s2|n2 st2 s2] Hi; simpl in Hi;
      try contradiction.
    + by apply coupled_ret.
    + destruct Hi as [-> Hs']. eapply coupled_bind; [by apply coupled_respond|].
      intros r1 r2 Hr. by apply coupled_ret.
    + destruct Hi as (-> & -> & Hs'). by apply IH.
Qed.

Lemma coupled_run (now1 now2 : nat → Time)
    (fetchWeather : float → float → float + string) (fuel : nat)
    (wf : Workflow.t) (vars : loc) :
  coupled agree (run now1 fetchWeather fuel wf vars)
                (run now2 fetchWeather fuel wf vars).
Proof.
  unfold run. cbn zeta.
  destruct (findNodeByType _ "start") as [start|].
  - by apply coupled_walk.
  - eapply coupled_bind; [apply coupled_time_Now|].
    intros t1 t2 _. by apply coupled_ret.
Qed.

(** C4, as stated, fails: two executions of the same graph on the same
    inputs with the same weather, the second begun seven readings of the
    clock later, both complete, and the outputs of their email steps carry
    different message ids. *)
Lemma Execute_outputs_depend_on_clock :
  let first := (Execute morning sunny 4 alertWorkflow 0 (mkWorld [hotDay] 0)).1 in
  let second := (Execute morning sunny 4 alertWorkflow 0 (mkWorld [hotDay] 7)).1 in
  statusOf first = Some "completed"
  ∧ statusOf second = Some "completed"
  ∧ messageIdAt 2 first = Some "msg_20240517093001"
  ∧ messageIdAt 2 second = Some "msg_20240517093008"
  ∧ stepsOf first ≠ stepsOf second.
Proof.
  repeat split; try reflexivity.
  intros H.
  apply (f_equal (λ steps, messageIdAt 2
                             (Some (ExecutionResponse.mk "" "" steps)))) in H.
  vm_compute in H. discriminate H.
Qed.

(** C4, amended. Two executions of a graph from worlds that hold the same
    maps, with the same weather function and any two clocks, both run out
    of fuel or both return; the two responses have the same overall status
    and the same steps (node ids, types, labels, statuses, errors, outputs)
    once [messageId] and the [timestamp] of [emailDraft] are taken out of
    the outputs of the email steps. *)
Theorem Execute_agrees_up_to_clock (now1 now2 : nat → Time)
    (fetchWeather : float → float → float + string) (fuel : nat)
    (wf : Workflow.t) (inputs : loc) (w1 w2 : World) :
  heap w1 = heap w2 →
  agree (Execute now1 fetchWeather fuel wf inputs w1).1
        (Execute now2 fetchWeather fuel wf inputs w2).1.
Proof.
  intros Hw. unfold Execute.
  by destruct (coupled_run now1 now2 fetchWeather fuel wf inputs w1 w2 Hw).
Qed.

Lemma Execute_agrees_up_to_clock_witness :
  agree (Execute morning sunny 4 alertWorkflow 0 (mkWorld [hotDay] 0)).1
        (Execute later sunny 4 alertWorkflow 0 (mkWorld [hotDay] 7)).1.
Proof.
  apply (Execute_agrees_up_to_clock morning later sunny 4 alertWorkflow 0
           (mkWorld [hotDay] 0) (mkWorld [hotDay] 7)).
  reflexivity.
Defined.

(** ** The unit tests of the repository *)

Example TestFindNextNodeID_start :
  findNextNodeID testEdges "start" ∅ = "form".
Proof. reflexivity. Qed.

Example TestFindNextNodeID_condition_met :
  findNextNodeID testEdges "condition" (<["conditionMet" := VBool true]> ∅) = "email".
Proof. reflexivity. Qed.

Example TestFindNextNodeID_condition_not_met :
  findNextNodeID testEdges "condition" (<["conditionMet" := VBool false]> ∅) = "end".
Proof. reflexivity. Qed.

Example TestFindNextNodeID_no_next :
  findNextNodeID testEdges "end" ∅ = "".
Proof. reflexivity. Qed.

(** Without [conditionMet] a condition node resolves to neither branch. *)
Example findNextNodeID_condition_absent :
  findNextNodeID testEdges "condition" ∅ = "".
Proof. reflexivity. Qed.

Example TestFindNodeByType_found :
  Node.ID <$> findNodeByType testNodes "form" = Some "form".
Proof. reflexivity. Qed.

Example TestFindNodeByType_missing :
  findNodeByType testNodes "nonexistent" = None.
Proof. reflexivity. Qed.

Example TestExecutor_GetCityCoordinates_Sydney :
  getCityCoordinates citiesNode "Sydney" = ((-33.8688)%float, 151.2093%float).
Proof. reflexivity. Qed.

Example TestExecutor_GetCityCoordinates_unknown :
  getCityCoordinates citiesNode "UnknownCity" = (0%float, 0%float).
Proof. reflexivity. Qed.

Example TestExecutor_Execute_start_end :
  let r := (Execute morning sunny 2 startEndWorkflow 0 (mkWorld [∅] 0)).1 in
  statusOf r = Some "completed"
  ∧ ExecutionStep.NodeID <$> stepsOf r = ["start"; "end"].
Proof. split; reflexivity. Qed.

Example TestExecutor_Execute_form :
  let r := (Execute morning sunny 3 formWorkflow 0 (mkWorld [johnDoe] 0)).1 in
  statusOf r = Some "completed" ∧ length (stepsOf r) = 3
  ∧ (stepsOf r !! 1 ≫= ExecutionStep.Output) = Some johnDoe.
Proof. repeat split; reflexivity. Qed.

Example TestExecutor_Execute_form_missing_field :
  let r := (Execute morning sunny 3 formWorkflow 0
              (mkWorld [delete "email" johnDoe] 0)).1 in
  statusOf r = Some "failed"
  ∧ ExecutionStep.Error <$> stepsOf r
    = [""; "missing required input field: email"].
Proof. split; reflexivity. Qed.

Example TestExecutor_ProcessConditionNode_greater_than :
  (processConditionNode 0 blankStep (mkWorld [callerInputs] 0)).1.2 = None
  ∧ env_at (processConditionNode 0 blankStep (mkWorld [callerInputs] 0)).2 0
      !! "conditionMet" = Some (VBool true).
Proof. split; reflexivity. Qed.

Example TestExecutor_ProcessConditionNode_less_than :
  let env : gmap string Value :=
    <["temperature" := VFloat 20]>
      (<["threshold" := VFloat 25]> (<["operator" := VString "less_than"]> ∅)) in
  env_at (processConditionNode 0 blankStep (mkWorld [env] 0)).2 0
    !! "conditionMet" = Some (VBool true).
Proof. reflexivity. Qed.

Example TestExecutor_ProcessEmailNode_not_met :
  (processEmailNode morning 0 blankStep
     (mkWorld [<["conditionMet" := VBool false]> hotDay] 0)).1.2 = None.
Proof. reflexivity. Qed.

(** An unknown branch tag on the only edge of the start node ends the walk
    after one step, with status "completed". *)
Example unknown_tag_ends_walk :
  let r := (Execute morning sunny 2
              (sampleWorkflow [ sampleNode "start" "start" ∅; sampleNode "end" "end" ∅ ]
                 [ maybeEdge ])
              0 (mkWorld [<["conditionMet" := VBool true]> ∅] 0)).1 in
  statusOf r = Some "completed"
  ∧ ExecutionStep.NodeID <$> stepsOf r = ["start"].
Proof. split; reflexivity. Qed.

(** ** Instances *)

Lemma findNextNodeID_skips_unknown_tag_witness :
  (∀ before after cur vars,
      findNextNodeID (before ++ maybeEdge :: after) cur vars
      = findNextNodeID (before ++ after) cur vars)
  ∧ (∀ edges cur vars,
      (∀ e', e' ∈ edges → Edge.Source e' = cur → e' = maybeEdge) →
      findNextNodeID edges cur vars = "").
Proof.
  apply (findNextNodeID_skips_unknown_tag maybeEdge).
  repeat split; discriminate.
Defined.

Lemma processConditionNode_spec_witness :
  let w := mkWorld [intThreshold] 0 in
  let result := processConditionNode 0 blankStep w in
  (result.1.2 = None
   ∧ env_at result.2 0 = <["conditionMet" := VBool true]> intThreshold
   ∧ ∃ o, ExecutionStep.Output result.1.1 = Some o
          ∧ o !! "conditionMet" = Some (VBool true))
  ∧ result.1 = (processConditionNode 0 blankStep (mkWorld [callerInputs] 0)).1.
Proof.
  destruct (processConditionNode_spec 0 blankStep (mkWorld [intThreshold] 0))
    as (Hok & _ & Hint).
  split.
  - apply (Hok 30%float 25%float); reflexivity.
  - apply (Hint 25%Z (mkWorld [callerInputs] 0)); reflexivity.
Defined.

Lemma processEmailNode_spec_witness :
  let result := processEmailNode morning 0 blankStep (mkWorld [alertDay] 0) in
  let skipped := processEmailNode morning 0 blankStep (mkWorld [hotDay] 0) in
  (skipped.1.2 = None
   ∧ ExecutionStep.Output skipped.1.1 =
       Some (<["emailSent" := VBool false]>
               (<["message" := VString "Condition not met, no email sent"]> ∅)))
  ∧ (result.1.2 ≠ None ↔
       ¬ isText (alertDay !! "city") ∨ ¬ isNumber (alertDay !! "temperature")
       ∨ ¬ isText (alertDay !! "email"))
  ∧ ∃ o id, ExecutionStep.Output result.1.1 = Some o
            ∧ o !! "emailSent" = Some (VBool true)
            ∧ o !! "messageId" = Some (VString id) ∧ id ≠ "".
Proof.
  destruct (processEmailNode_spec morning 0 blankStep (mkWorld [hotDay] 0))
    as [Hskip _].
  destruct (processEmailNode_spec morning 0 blankStep (mkWorld [alertDay] 0))
    as [_ Hsend].
  split; [apply Hskip; discriminate|].
  destruct (Hsend eq_refl) as [Hiff Hsent].
  split; [exact Hiff | apply Hsent; reflexivity].
Defined.

Lemma processIntegrationNode_spec_witness :
  let result := processIntegrationNode sunny weatherNode 0 blankStep
                  (mkWorld [hotDay] 0) in
  ∃ city reading,
    hotDay !! "city" = Some (VString city)
    ∧ sunny (getCityCoordinates weatherNode city).1
            (getCityCoordinates weatherNode city).2 = inl reading
    ∧ env_at result.2 0 = <["temperature" := VFloat reading]> hotDay
    ∧ ExecutionStep.Output result.1.1 =
        Some (<["temperature" := VFloat reading]>
                (<["location" := VString city]> ∅)).
Proof.
  destruct (processIntegrationNode_spec sunny weatherNode 0 blankStep
              (mkWorld [hotDay] 0)) as [_ Hok].
  apply Hok. reflexivity.
Defined.

(** ** The second text of [Execute] *)

Lemma ExecuteCopy_run (now : nat → Time)
    (fetchWeather : float → float → float + string) (fuel : nat)
    (wf : Workflow.t) (inputs : loc) (w : World) :
  ExecuteCopy now fetchWeather fuel wf inputs w
  = run now fetchWeather fuel wf (length (heap w))
      (copyEntries inputs (length (heap w)) (make_map w).2).2.
Proof.
  unfold ExecuteCopy. unfold mbind at 1, M_bind at 1. unfold make_map at 1.
  unfold mbind at 1, M_bind at 1. unfold make_map.
  by destruct (copyEntries inputs (length (heap w)) _) as [[] w1].
Qed.

Lemma ExecuteCopy_status_reflects_trace (now : nat → Time)
    (fetchWeather : float → float → float + string) (fuel : nat)
    (wf : Workflow.t) (inputs : loc) (w : World) (r : ExecutionResponse.t)
    (w' : World) :
  ExecuteCopy now fetchWeather fuel wf inputs w = (Some r, w') →
  (ExecutionResponse.Status r = "completed"
   ↔ Forall completed (ExecutionResponse.Steps r))
  ∧ (ExecutionResponse.Status r = "failed"
     ↔ Exists failed (ExecutionResponse.Steps r))
  ∧ (∀ i step, ExecutionResponse.Steps r !! i = Some step → failed step →
               S i = length (ExecutionResponse.Steps r)).
Proof.
  rewrite ExecuteCopy_run. intros Hrun. apply trace_shape. by eapply run_trace.
Qed.

Lemma ExecuteCopy_no_start_node (now : nat → Time)
    (fetchWeather : float → float → float + string) (fuel : nat)
    (wf : Workflow.t) (inputs : loc) (w : World) :
  (∀ n, n ∈ WorkflowGraph.Nodes (Workflow.Definition_ wf) →
        Node.Type_ n ≠ "start") →
  ∃ t, (ExecuteCopy now fetchWeather fuel wf inputs w).1
       = Some (ExecutionResponse.mk t "failed" [noStartStep]).
Proof.
  intros Hnone. apply findNodeByType_None in Hnone.
  rewrite ExecuteCopy_run. unfold run. rewrite Hnone. unfold_M. by eexists.
Qed.

Lemma coupled_copyEntries (inputs vars : loc) :
  coupled eq (copyEntries inputs vars) (copyEntries inputs vars).
Proof.
  unfold copyEntries. eapply coupled_bind; [apply coupled_map_snapshot|].
  intros entries ? <-.
  induction (map_to_list entries) as [|kv rest IH]; simpl; [by apply coupled_ret|].
  eapply coupled_bind; [apply coupled_map_assign|]. by intros [] [] _.
Qed.

Lemma ExecuteCopy_agrees_up_to_clock (now1 now2 : nat → Time)
    (fetchWeather : float → float → float + string) (fuel : nat)
    (wf : Workflow.t) (inputs : loc) (w1 w2 : World) :
  heap w1 = heap w2 →
  agree (ExecuteCopy now1 fetchWeather fuel wf inputs w1).1
        (ExecuteCopy now2 fetchWeather fuel wf inputs w2).1.
Proof.
  intros Hw. rewrite !ExecuteCopy_run. rewrite Hw.
  apply coupled_run. apply coupled_copyEntries.
  unfold make_map. simpl. by rewrite Hw.
Qed.


(** ** The form behaviour *)

Lemma copyInputFields_run (vars : loc) (w : World) (fields : list Value) :
  ∀ output,
    let env := env_at w vars in
    let names := declaredFields fields in
    (copyInputFields fields vars output w).2 = w
    ∧ match find (isAbsent env) names with
      | Some name =>
          (copyInputFields fields vars output w).1
          = inr ("missing required input field: " +:+ name)
      | None =>
          ∃ o, (copyInputFields fields vars output w).1 = inl o
               ∧ ∀ k, o !! k = if decide (k ∈ names) then env !! k else output !! k
      end.
Proof.
  induction fields as [|field fields IH]; intros output env names.
  - split; [done|]. simpl. by exists output.
  - subst names env. unfold declaredFields. simpl.
    destruct (as_string field) as [name|] eqn:Hname; [|apply IH].
    unfold mbind, M_bind, map_lookup. simpl.
    change (list_omap _ _ as_string fields) with (declaredFields fields).
    unfold isAbsent at 1.
    destruct (env_at w vars !! name) as [value|] eqn:Hv; [|done].
    destruct (IH (<[name := value]> output)) as [Hw Hfind].
    split; [done|]. cbn zeta in Hfind.
    destruct (find (isAbsent (env_at w vars)) (declaredFields fields))
      as [missing|]; [done|].
    destruct Hfind as (o & Ho & Hlook). exists o. split; [done|].
    intros k. rewrite Hlook.
    destruct (decide (k = name)) as [->|Hne].
    + rewrite (decide_True (P := name ∈ name :: _)) by left.
      case_decide; [done|]. by rewrite lookup_insert_eq.
    + rewrite lookup_insert_ne by done.
      destruct (decide (k ∈ declaredFields fields)) as [Hin|Hin].
      * by rewrite decide_True by (by right).
      * rewrite decide_False; [done|].
        intros Hin'. apply elem_of_cons in Hin' as [?|?]; done.
Qed.

Lemma find_isAbsent_None (env : gmap string Value) (names : list string) :
  find (isAbsent env) names = None ↔ Forall (λ n, is_Some (env !! n)) names.
Proof.
  induction names as [|n names IH]; simpl; [by split|].
  unfold isAbsent at 1. rewrite Forall_cons.
  destruct (env !! n) as [v|]; [|split; [done | by intros [[? ?] _]]].
  rewrite IH. split; [by split; [eexists|] | by intros [_ ?]].
Qed.


Lemma as_slice_index (m : gmap string Value) (k : string) (l : list Value) :
  as_slice (index m k) = Some l ↔ m !! k = Some (VList l).
Proof.
  unfold index. destruct (m !! k) as [[]|]; simpl; split; intros H;
    try discriminate; congruence.
Qed.

(** X1. The form behaviour succeeds exactly when [inputFields] is a list and
    every text in it is a key of the environment (whatever value the key
    holds, the nil value included). The output then is the environment
    restricted to the declared names; entries of the list that are not
    texts are passed over. The behaviour never changes the store. *)
Theorem processFormNode_output (node : Node.t) (vars : loc)
    (step : ExecutionStep.t) (w : World) :
  let env := env_at w vars in
  let metadata := NodeData.Metadata (Node.Data node) in
  let result := processFormNode node vars step w in
  result.2 = w
  ∧ (result.1.2 = None ↔
       ∃ fields, metadata !! "inputFields" = Some (VList fields)
                 ∧ Forall (λ n, is_Some (env !! n)) (declaredFields fields))
  ∧ (∀ fields,
       metadata !! "inputFields" = Some (VList fields) →
       result.1.2 = None →
       ∃ o, result.1.1 = ExecutionStep.set_Output o step
            ∧ ∀ k, o !! k = if decide (k ∈ declaredFields fields)
                            then env !! k else None).
Proof.
  intros env metadata result. subst result. unfold processFormNode. fold metadata.
  destruct (as_slice (index metadata "inputFields")) as [fields|] eqn:Hmd.
  - apply as_slice_index in Hmd.
    destruct (copyInputFields_run vars w fields ∅) as [Hw Hrun].
    cbn zeta in Hrun. fold env in Hrun.
    unfold mbind, M_bind.
    destruct (copyInputFields fields vars ∅ w) as [[o|err] w1] eqn:Hc;
      simpl in Hw; subst w1; simpl.
    + destruct (find (isAbsent env) (declaredFields fields)) eqn:Hfind;
        [done|].
      apply find_isAbsent_None in Hfind.
      split; [done|]. split; [split; [eauto | done]|].
      intros fields' Hmd' _. rewrite Hmd in Hmd'. injection Hmd' as <-.
      destruct Hrun as (o' & [= <-] & Hlook). exists o. split; [done|].
      intros k. rewrite Hlook. by rewrite lookup_empty.
    + split; [done|]. split; [|done]. split; [done|].
      intros (fields' & Hmd' & Hall). rewrite Hmd in Hmd'. injection Hmd' as <-.
      apply find_isAbsent_None in Hall. rewrite Hall in Hrun.
      by destruct Hrun as (? & ? & _).
  - split; [done|]. split; [|intros fields Hf; simpl; done].
    split; [done|]. intros (fields & Hf & _).
    apply as_slice_index in Hf. congruence.
Qed.


Lemma processFormNode_output_witness :
  let result := processFormNode formNode 0 blankStep (mkWorld [johnDoe] 0) in
  result.1.2 = None
  ∧ ∃ o, result.1.1 = ExecutionStep.set_Output o blankStep
         ∧ ∀ k, o !! k = if decide (k ∈ ["name"; "email"]) then johnDoe !! k else None.
Proof.
  destruct (processFormNode_output formNode 0 blankStep (mkWorld [johnDoe] 0))
    as (_ & _ & Hout).
  split; [reflexivity|].
  apply (Hout [VString "name"; VFloat 7; VString "email"]); reflexivity.
Defined.


(** ** Coordinates *)

Lemma scanCityOptions_head (options : list Value) (city : string) :
  scanCityOptions options city
  = default (0%float, 0%float) (head (omap (cityOption city) options)).
Proof.
  induction options as [|entry options IH]; [done|].
  simpl. unfold cityOption at 1, index.
  destruct entry as [| | | | | |cityData]; simpl; try apply IH.
  destruct (cityData !! "city") as [[| | | |name| |]|]; simpl; try apply IH.
  destruct (String.eqb name city).
  - destruct (cityData !! "lat") as [[| |lat| | | |]|]; simpl; try apply IH.
    destruct (cityData !! "lon") as [[| |lon| | | |]|]; simpl; try apply IH.
    done.
  - destruct (cityData !! "lat") as [[| |lat| | | |]|]; simpl; try apply IH.
    destruct (cityData !! "lon") as [[| |lon| | | |]|]; simpl; apply IH.
Qed.

(** X3. Coordinate resolution returns the coordinates of the first entry of
    [options] that is a map with the given city as its [city] text and
    numbers as [lat] and [lon]; entries of another shape, or with another
    city, are passed over, also when they name the city but lack a numeric
    coordinate. With no such entry, or when [options] is no list, the
    result is (0, 0). So a result that is not the sentinel comes from an
    entry of the list. *)
Theorem getCityCoordinates_first_entry (node : Node.t) (city : string) :
  let metadata := NodeData.Metadata (Node.Data node) in
  (∀ options,
     metadata !! "options" = Some (VList options) →
     getCityCoordinates node city
     = default (0%float, 0%float) (head (omap (cityOption city) options)))
  ∧ ((∀ options, metadata !! "options" ≠ Some (VList options)) →
     getCityCoordinates node city = (0%float, 0%float))
  ∧ (isSentinel (getCityCoordinates node city) = false →
     ∃ options cityData,
       metadata !! "options" = Some (VList options)
       ∧ VMap cityData ∈ options
       ∧ cityData !! "city" = Some (VString city)
       ∧ cityData !! "lat" = Some (VFloat (getCityCoordinates node city).1)
       ∧ cityData !! "lon" = Some (VFloat (getCityCoordinates node city).2)).
Proof.
  intros metadata. unfold getCityCoordinates. fold metadata.
  split; [|split].
  - intros options Hmd. apply as_slice_index in Hmd. rewrite Hmd.
    apply scanCityOptions_head.
  - intros Hnone.
    destruct (as_slice (index metadata "options")) as [options|] eqn:Hmd; [|done].
    apply as_slice_index in Hmd. by destruct (Hnone options).
  - destruct (as_slice (index metadata "options")) as [options|] eqn:Hmd;
      [|discriminate].
    apply as_slice_index in Hmd. rewrite scanCityOptions_head.
    destruct (head (omap (cityOption city) options)) as [[lat lon]|] eqn:Hhead;
      [|discriminate].
    intros _. simpl.
    assert ((lat, lon) ∈ omap (cityOption city) options) as Hin.
    { destruct (omap (cityOption city) options); [done|].
      injection Hhead as ->. left. }
    apply list_elem_of_omap in Hin as (entry & Hentry & Hopt).
    unfold cityOption in Hopt.
    destruct entry as [| | | | | |cityData]; try discriminate.
    exists options, cityData. split; [done|]. split; [done|].
    destruct (cityData !! "city") as [[| | | |name| |]|]; try discriminate.
    destruct (cityData !! "lat") as [[| |lat'| | | |]|]; try discriminate.
    destruct (cityData !! "lon") as [[| |lon'| | | |]|]; try discriminate.
    destruct (String.eqb_spec name city) as [->|]; [|discriminate].
    by injection Hopt as -> ->.
Qed.

Lemma getCityCoordinates_first_entry_witness :
  getCityCoordinates perthNode "Perth" = ((-31.9505)%float, 115.8605%float)
  ∧ ∃ options cityData,
      NodeData.Metadata (Node.Data perthNode) !! "options" = Some (VList options)
      ∧ VMap cityData ∈ options
      ∧ cityData !! "city" = Some (VString "Perth")
      ∧ cityData !! "lat" = Some (VFloat (getCityCoordinates perthNode "Perth").1)
      ∧ cityData !! "lon" = Some (VFloat (getCityCoordinates perthNode "Perth").2).
Proof.
  split; [reflexivity|].
  destruct (getCityCoordinates_first_entry perthNode "Perth") as (_ & _ & Hfrom).
  apply Hfrom. reflexivity.
Defined.

(** ** The start node and the node index *)

(** X4. [findNodeByType] returns the first node of the type in declared
    order: no node before it has the type. It returns nothing exactly when
    no node has the type. *)
Theorem findNodeByType_first (nodes : list Node.t) (nodeType : string) :
  (∀ n, findNodeByType nodes nodeType = Some n ↔
        ∃ before after, nodes = before ++ n :: after
                        ∧ Node.Type_ n = nodeType
                        ∧ Forall (λ m, Node.Type_ m ≠ nodeType) before)
  ∧ (findNodeByType nodes nodeType = None ↔
     Forall (λ m, Node.Type_ m ≠ nodeType) nodes).
Proof.
  induction nodes as [|m nodes [IHsome IHnone]]; simpl.
  - split; [|by split]. intros n. split; [done|].
    intros (before & after & H & _). by destruct before.
  - destruct (String.eqb_spec (Node.Type_ m) nodeType) as [Heq|Hne].
    + split.
      * intros n. split.
        -- intros [= <-]. by exists [], nodes.
        -- intros (before & after & Hn & Ht & Hb).
           destruct before as [|b before]; simpl in Hn.
           ++ by injection Hn as ->.
           ++ injection Hn as -> ->. by apply Forall_cons in Hb as [? _].
      * split; [done|]. intros H. by apply Forall_cons in H as [? _].
    + split.
      * intros n. rewrite IHsome. split.
        -- intros (before & after & -> & Ht & Hb).
           exists (m :: before), after. split; [done|]. split; [done|].
           by constructor.
        -- intros (before & after & Hn & Ht & Hb).
           destruct before as [|b before]; simpl in Hn.
           ++ injection Hn as -> ->. done.
           ++ injection Hn as -> ->. apply Forall_cons in Hb as [_ Hb].
              by exists before, after.
      * rewrite IHnone. rewrite Forall_cons. split; [by split | by intros [_ ?]].
Qed.

Lemma findNodeByType_first_witness :
  findNodeByType twinNodes "start" = Some (sampleNode "a" "start" ∅)
  ∧ findNodeByType twinNodes "end" = None.
Proof.
  destruct (findNodeByType_first twinNodes "start") as [Hsome _].
  destruct (findNodeByType_first twinNodes "end") as [_ Hnone].
  split.
  - apply Hsome. exists [], (tail twinNodes). by repeat split.
  - apply Hnone. unfold twinNodes. repeat constructor; discriminate.
Defined.

Lemma foldl_nodeMap_fresh (nodes : list Node.t) (acc : gmap string Node.t)
    (id : string) :
  Forall (λ m, Node.ID m ≠ id) nodes →
  foldl (λ nodeMap n, <[Node.ID n := n]> nodeMap) acc nodes !! id = acc !! id.
Proof.
  revert acc. induction nodes as [|m nodes IH]; intros acc Hall; [done|].
  apply Forall_cons in Hall as [Hm Hall]. simpl.
  rewrite IH by done. by rewrite lookup_insert_ne.
Qed.

(** X5. In the node index a later node replaces an earlier one with the
    same id: looking up an id gives the last node that has it. The lookup
    fails exactly when no node has the id; and when the ids are distinct,
    every node is found under its id. *)
Theorem buildNodeMap_last_wins (nodes : list Node.t) :
  (∀ before n after,
     nodes = before ++ n :: after →
     Forall (λ m, Node.ID m ≠ Node.ID n) after →
     buildNodeMap nodes !! Node.ID n = Some n)
  ∧ (∀ id, buildNodeMap nodes !! id = None ↔ Forall (λ m, Node.ID m ≠ id) nodes)
  ∧ (NoDup (Node.ID <$> nodes) →
     ∀ n, n ∈ nodes → buildNodeMap nodes !! Node.ID n = Some n).
Proof.
  assert (∀ before n after,
            nodes = before ++ n :: after →
            Forall (λ m, Node.ID m ≠ Node.ID n) after →
            buildNodeMap nodes !! Node.ID n = Some n) as Hlast.
  { intros before n after -> Hafter. unfold buildNodeMap.
    rewrite foldl_app. simpl. rewrite foldl_nodeMap_fresh by done.
    apply lookup_insert_eq. }
  split; [exact Hlast|]. split.
  - intros id. rewrite buildNodeMap_None, Forall_forall. done.
  - intros Hnd n Hn. apply list_elem_of_split in Hn as (before & after & ->).
    apply (Hlast before n after); [done|].
    rewrite fmap_app, fmap_cons in Hnd.
    apply NoDup_app in Hnd as (_ & _ & Hnd). apply NoDup_cons in Hnd as [Hnot _].
    apply Forall_forall. intros m Hm Heq. apply Hnot.
    rewrite <- Heq. by apply list_elem_of_fmap_2.
Qed.

Lemma buildNodeMap_last_wins_witness :
  buildNodeMap twinNodes !! "a" = Some (sampleNode "a" "email" ∅).
Proof.
  destruct (buildNodeMap_last_wins twinNodes) as [Hlast _].
  apply (Hlast [sampleNode "a" "start" ∅; sampleNode "b" "form" ∅]
           (sampleNode "a" "email" ∅) [sampleNode "c" "start" ∅]).
  - reflexivity.
  - repeat constructor. discriminate.
Defined.

(** ** The trace as a path of the graph *)

Lemma recordError_header (status : string) (step : ExecutionStep.t)
    (r : ExecutionStep.t * option string) :
  sameHeader step r.1 → sameHeader step (recordError status r).1.
Proof. unfold recordError. by destruct r as [s [err|]]. Qed.

Lemma dispatch_header (now : nat → Time)
    (fetchWeather : float → float → float + string) (current : Node.t)
    (vars : loc) (step : ExecutionStep.t) (status : string) (w : World) :
  sameHeader step (dispatch now fetchWeather current vars step status w).1.1.
Proof.
  unfold dispatch. cbn zeta.
  destruct (String.eqb _ "start"); [done|].
  destruct (String.eqb _ "form").
  { unfold mbind, M_bind.
    assert (sameHeader step (processFormNode current vars step w).1.1) as H.
    { unfold processFormNode. destruct (as_slice _) as [fields|]; [|done].
      unfold mbind, M_bind.
      by destruct (copyInputFields fields vars ∅ w) as [[o|err] w1]. }
    destruct (processFormNode current vars step w) as [r w1].
    by apply recordError_header. }
  destruct (String.eqb _ "integration").
  { unfold mbind, M_bind.
    assert (sameHeader step
              (processIntegrationNode fetchWeather current vars step w).1.1) as H.
    { rewrite processIntegrationNode_run. cbn zeta.
      destruct (as_string _); [|done]. destruct (isSentinel _); [done|].
      by destruct (fetchWeather _ _). }
    destruct (processIntegrationNode fetchWeather current vars step w) as [r w1].
    by apply recordError_header. }
  destruct (String.eqb _ "condition").
  { unfold mbind, M_bind.
    assert (sameHeader step (processConditionNode vars step w).1.1) as H.
    { rewrite processConditionNode_run. cbn zeta.
      destruct (as_float64 _); [|done]. by destruct (thresholdValue _). }
    destruct (processConditionNode vars step w) as [r w1].
    by apply recordError_header. }
  destruct (String.eqb _ "email").
  { unfold mbind, M_bind.
    assert (sameHeader step (processEmailNode now vars step w).1.1) as H.
    { destruct (is_true_or_not (env_at w vars !! "conditionMet")) as [Hc|Hc].
      - rewrite processEmailNode_send by done. cbn zeta.
        destruct (as_string _); [|done]. destruct (as_float64 _); [|done].
        by destruct (as_string _).
      - by rewrite processEmailNode_skip. }
    destruct (processEmailNode now vars step w) as [r w1].
    by apply recordError_header. }
  by destruct (String.eqb _ "end").
Qed.

(** The step an iteration appends records the current node, and the node
    of the next iteration is a node of the graph at the end of an edge. *)
Lemma loopBody_step (now : nat → Time)
    (fetchWeather : float → float → float + string) (wf : Workflow.t)
    (vars : loc) (current : Node.t) (status : string)
    (steps : list ExecutionStep.t) (w : World) :
  ∃ step,
    stepOf current step
    ∧ match (loopBody now fetchWeather wf
               (buildNodeMap (WorkflowGraph.Nodes (Workflow.Definition_ wf)))
               vars current status steps w).1 with
      | Return r => ExecutionResponse.Steps r = steps ++ [step]
      | Break _ steps' => steps' = steps ++ [step]
      | Next nextNode _ steps' =>
          steps' = steps ++ [step]
          ∧ nextNode ∈ WorkflowGraph.Nodes (Workflow.Definition_ wf)
          ∧ hasEdge wf (Node.ID current) (Node.ID nextNode)
      end.
Proof.
  unfold loopBody. unfold mbind at 1, M_bind at 1.
  pose proof (dispatch_header now fetchWeather current vars (newStep current)
                status w) as Hh.
  destruct (dispatch now fetchWeather current vars (newStep current) status w)
    as [[step status'] w1]. simpl in Hh. exists step.
  split; [by destruct Hh as (? & ? & ? & ?)|].
  destruct (String.eqb (ExecutionStep.Status step) "failed"); [done|].
  unfold mbind, M_bind, mret, M_ret, map_snapshot. cbn [fst snd].
  pose proof (findNextNodeID_edge (WorkflowGraph.Edges (Workflow.Definition_ wf))
                (Node.ID current) (env_at w1 vars)) as Hedge.
  destruct (String.eqb_spec
              (findNextNodeID (WorkflowGraph.Edges (Workflow.Definition_ wf))
                 (Node.ID current) (env_at w1 vars)) "") as [He|He]; [done|].
  destruct (buildNodeMap _ !! _) as [nextNode|] eqn:Hn; [|done]. simpl.
  apply buildNodeMap_Some in Hn as [Hin Hid].
  split; [done|]. split; [done|].
  destruct Hedge as [?|(e & He1 & He2 & He3)]; [done|].
  exists e. by rewrite Hid.
Qed.

Lemma walk_path (now : nat → Time)
    (fetchWeather : float → float → float + string) (wf : Workflow.t)
    (vars : loc) (fuel : nat) :
  ∀ current status steps w r w',
    current ∈ WorkflowGraph.Nodes (Workflow.Definition_ wf) →
    walk now fetchWeather fuel wf
      (buildNodeMap (WorkflowGraph.Nodes (Workflow.Definition_ wf)))
      vars current status steps w = (Some r, w') →
    ∃ added, ExecutionResponse.Steps r = steps ++ added
             ∧ tracesPath wf current added.
Proof.
  induction fuel as [|fuel IH]; intros current status steps w r w' Hin Hwalk;
    [discriminate|].
  simpl in Hwalk. unfold mbind at 1, M_bind at 1 in Hwalk.
  destruct (loopBody_step now fetchWeather wf vars current status steps w)
    as (step & Hstep & Hcase).
  destruct (loopBody _ _ _ _ _ _ _ _ w)
    as [[r0 | status' steps' | nextNode status' steps'] w1]; simpl in Hcase.
  - injection Hwalk as <- <-. exists [step]. split; [done|]. simpl. auto.
  - unfold respond, mbind, M_bind, mret, M_ret, time_Now in Hwalk.
    injection Hwalk as <- <-. exists [step]. split; [by subst|]. simpl. auto.
  - destruct Hcase as (-> & Hnext & Hedge).
    destruct (IH _ _ _ _ _ _ Hnext Hwalk) as (added & Hsteps & Hpath).
    exists (step :: added). split.
    + by rewrite Hsteps, <- app_assoc.
    + simpl. split; [done|]. split; [done|]. right. by exists nextNode.
Qed.

Lemma findNodeByType_elem (nodes : list Node.t) (t : string) (n : Node.t) :
  findNodeByType nodes t = Some n → n ∈ nodes ∧ Node.Type_ n = t.
Proof.
  induction nodes as [|m nodes IH]; [done|]. simpl.
  destruct (String.eqb_spec (Node.Type_ m) t) as [Heq|_].
  - intros [= <-]. split; [left | done].
  - intros H. destruct (IH H). split; [by right | done].
Qed.

(** X6. The trace of a response is a path of the graph. Its first step
    records the first node of type "start"; every step carries the id,
    type, label and description of a node of the graph; and each step after
    the first records a node to which an edge leads from the node of the
    step before. *)
Theorem Execute_trace_is_path (now : nat → Time)
    (fetchWeather : float → float → float + string) (fuel : nat)
    (wf : Workflow.t) (inputs : loc) (w : World) (start : Node.t)
    (r : ExecutionResponse.t) (w' : World) :
  findNodeByType (WorkflowGraph.Nodes (Workflow.Definition_ wf)) "start"
    = Some start →
  Execute now fetchWeather fuel wf inputs w = (Some r, w') →
  tracesPath wf start (ExecutionResponse.Steps r).
Proof.
  intros Hstart Hrun. unfold Execute, run in Hrun. rewrite Hstart in Hrun.
  apply findNodeByType_elem in Hstart as [Hin _].
  destruct (walk_path _ _ _ _ _ _ _ _ _ _ _ Hin Hrun) as (added & -> & Hpath).
  done.
Qed.

Lemma Execute_trace_is_path_witness :
  ∃ r w',
    Execute morning sunny 4 alertWorkflow 0 (mkWorld [hotDay] 0) = (Some r, w')
    ∧ ExecutionStep.NodeID <$> ExecutionResponse.Steps r
      = ["start"; "condition"; "email"; "end"]
    ∧ tracesPath alertWorkflow startNode (ExecutionResponse.Steps r).
Proof.
  destruct (Execute morning sunny 4 alertWorkflow 0 (mkWorld [hotDay] 0))
    as [[r|] w'] eqn:Hrun.
  - exists r, w'. split; [reflexivity|]. split.
    + vm_compute in Hrun. injection Hrun as <- _. reflexivity.
    + exact (Execute_trace_is_path morning sunny 4 alertWorkflow 0
               (mkWorld [hotDay] 0) startNode r w' eq_refl Hrun).
  - vm_compute in Hrun. discriminate Hrun.
Defined.

(** ** The keys an execution writes *)

Lemma keepsKey_ret {A : Type} (vars : loc) (k : string) (a : A) :
  keepsKey vars k (mret a).
Proof. done. Qed.

Lemma keepsKey_bind {A B : Type} (vars : loc) (k : string) (c : M A)
    (f : A → M B) :
  keepsKey vars k c → (∀ a, keepsKey vars k (f a)) → keepsKey vars k (c ≫= f).
Proof.
  intros Hc Hf w. unfold mbind, M_bind.
  specialize (Hc w). destruct (c w) as [a w1]. simpl in Hc.
  by rewrite Hf.
Qed.

Lemma keepsKey_map_index (vars m : loc) (k k' : string) :
  keepsKey vars k (map_index m k').
Proof. done. Qed.

Lemma keepsKey_map_lookup (vars m : loc) (k k' : string) :
  keepsKey vars k (map_lookup m k').
Proof. done. Qed.

Lemma keepsKey_map_snapshot (vars m : loc) (k : string) :
  keepsKey vars k (map_snapshot m).
Proof. done. Qed.

Lemma keepsKey_time_Now (now : nat → Time) (vars : loc) (k : string) :
  keepsKey vars k (time_Now now).
Proof. done. Qed.

Lemma keepsKey_map_assign (vars : loc) (k k' : string) (v : Value) :
  k ≠ k' → keepsKey vars k (map_assign vars k' v).
Proof.
  intros Hne w. unfold map_assign, env_at. simpl.
  rewrite list_lookup_alter_eq. destruct (heap w !! vars); simpl; [|done].
  by rewrite lookup_insert_ne.
Qed.

Create HintDb keys.

#[local] Hint Resolve keepsKey_ret keepsKey_map_index keepsKey_map_lookup
  keepsKey_map_snapshot keepsKey_time_Now keepsKey_map_assign : keys.

Ltac keys :=
  repeat first
    [ progress eauto with keys
    | apply keepsKey_bind; [|intros ?]
    | match goal with
      | |- keepsKey _ _ (match ?x with _ => _ end) => destruct x
      | |- keepsKey _ _ (let '(_, _) := ?x in _) => destruct x
      end ].

Lemma keepsKey_copyInputFields (fields : list Value) (vars : loc) (k : string) :
  ∀ output, keepsKey vars k (copyInputFields fields vars output).
Proof. induction fields as [|field fields IH]; intros output; simpl; keys. Qed.

#[local] Hint Resolve keepsKey_copyInputFields : keys.

Lemma keepsKey_dispatch (now : nat → Time)
    (fetchWeather : float → float → float + string) (current : Node.t)
    (vars : loc) (step : ExecutionStep.t) (status : string) (k : string) :
  k ≠ "temperature" → k ≠ "conditionMet" →
  keepsKey vars k (dispatch now fetchWeather current vars step status).
Proof.
  intros Ht Hc. unfold dispatch, processFormNode, processIntegrationNode,
    processConditionNode, processEmailNode. cbn zeta. keys.
Qed.

Lemma keepsKey_loopBody (now : nat → Time)
    (fetchWeather : float → float → float + string) (wf : Workflow.t)
    (nodeMap : gmap string Node.t) (vars : loc) (current : Node.t)
    (status : string) (steps : list ExecutionStep.t) (k : string) :
  k ≠ "temperature" → k ≠ "conditionMet" →
  keepsKey vars k (loopBody now fetchWeather wf nodeMap vars current status steps).
Proof.
  intros Ht Hc. unfold loopBody, respond.
  apply keepsKey_bind; [by apply keepsKey_dispatch|]. intros [step status']. keys.
Qed.

Lemma keepsKey_walk (now : nat → Time)
    (fetchWeather : float → float → float + string) (wf : Workflow.t)
    (nodeMap : gmap string Node.t) (vars : loc) (k : string) (fuel : nat) :
  k ≠ "temperature" → k ≠ "conditionMet" →
  ∀ current status steps,
    keepsKey vars k (walk now fetchWeather fuel wf nodeMap vars current status steps).
Proof.
  intros Ht Hc. induction fuel as [|fuel IH]; intros current status steps; simpl.
  - keys.
  - apply keepsKey_bind; [by apply keepsKey_loopBody|].
    intros [r|status' steps'|nextNode status' steps']; unfold respond; keys.
Qed.

(** X7. Whatever the graph, and whether or not the call returns within the
    fuel, [Execute] assigns to no key of the map it is given other than
    [temperature] and [conditionMet], and to no other map: every other
    entry of the caller's map, and every other map, is after the call what
    it was before. *)
Theorem Execute_writes_two_keys (now : nat → Time)
    (fetchWeather : float → float → float + string) (fuel : nat)
    (wf : Workflow.t) (inputs : loc) (w : World) :
  let w' := (Execute now fetchWeather fuel wf inputs w).2 in
  (∀ k, k ≠ "temperature" → k ≠ "conditionMet" →
        env_at w' inputs !! k = env_at w inputs !! k)
  ∧ (∀ m, m ≠ inputs → heap w' !! m = heap w !! m).
Proof.
  split.
  - intros k Ht Hc. unfold Execute, run. cbn zeta.
    destruct (findNodeByType _ "start") as [start|].
    + by apply keepsKey_walk.
    + done.
  - intros m Hm. by apply writesOnly_run.
Qed.

(** ** A node of an unknown type *)

Lemma dispatch_unknown (now : nat → Time)
    (fetchWeather : float → float → float + string) (current : Node.t)
    (vars : loc) (step : ExecutionStep.t) (status : string) (w : World) :
  knownType (Node.Type_ current) = false →
  dispatch now fetchWeather current vars step status w
  = ((ExecutionStep.fail ("Unknown node type: " +:+ Node.Type_ current) step,
      "failed"), w).
Proof.
  unfold knownType, dispatch. cbn zeta. intros H.
  repeat (apply orb_false_iff in H as [H ?]).
  by repeat match goal with Heq : String.eqb _ _ = false |- _ => rewrite Heq; clear Heq end;
    rewrite ?H.
Qed.

(** X8. When the walk reaches a node whose type is none of start, form,
    integration, condition, email and end, [Execute] returns with status
    "failed"; the trace is the steps so far followed by a failed step for
    this node with the error "Unknown node type: " and the type, and no map
    has changed since the node was reached. *)
Theorem Execute_unknown_type_fails (now : nat → Time)
    (fetchWeather : float → float → float + string) (wf : Workflow.t)
    (inputs : loc) (w : World) (start : Node.t) (here : LoopState) :
  findNodeByType (WorkflowGraph.Nodes (Workflow.Definition_ wf)) "start"
    = Some start →
  rtc (iterates now fetchWeather wf inputs)
      (mkLoopState start "completed" [] w) here →
  knownType (Node.Type_ (atNode here)) = false →
  ∃ fuel,
    Execute now fetchWeather fuel wf inputs w
    = (Some (ExecutionResponse.mk
               (format_RFC3339 (now (ticks (atWorld here)))) "failed"
               (atSteps here
                ++ [ExecutionStep.fail
                      ("Unknown node type: " +:+ Node.Type_ (atNode here))
                      (newStep (atNode here))])),
       mkWorld (heap (atWorld here)) (S (ticks (atWorld here)))).
Proof.
  intros Hstart Hreach Hunknown.
  unfold Execute, run. rewrite Hstart.
  destruct (walk_from_iterates now fetchWeather wf inputs _ here
              (Some (ExecutionResponse.mk
                       (format_RFC3339 (now (ticks (atWorld here)))) "failed"
                       (atSteps here
                        ++ [ExecutionStep.fail
                              ("Unknown node type: " +:+ Node.Type_ (atNode here))
                              (newStep (atNode here))])),
               mkWorld (heap (atWorld here)) (S (ticks (atWorld here)))) Hreach)
    as (fuel & Hwalk & _); [|by exists fuel].
  exists 1. split; [|by eexists]. simpl.
  unfold mbind at 1, M_bind at 1. unfold loopBody.
  unfold mbind at 1, M_bind at 1. rewrite dispatch_unknown by done.
  done.
Qed.

Lemma Execute_unknown_type_fails_witness :
  ∃ fuel,
    Execute morning sunny fuel oddWorkflow 0 (mkWorld [∅] 0)
    = (Some (ExecutionResponse.mk (format_RFC3339 (morning 0)) "failed"
               ([newStep startNode]
                ++ [ExecutionStep.fail "Unknown node type: delay"
                      (newStep (sampleNode "wait" "delay" ∅))])),
       mkWorld [∅] 1).
Proof.
  apply (Execute_unknown_type_fails morning sunny oddWorkflow 0 (mkWorld [∅] 0)
           startNode
           (mkLoopState (sampleNode "wait" "delay" ∅) "completed"
              [newStep startNode] (mkWorld [∅] 0))).
  - reflexivity.
  - apply rtc_once. reflexivity.
  - reflexivity.
Defined.

Lemma Execute_writes_two_keys_witness :
  let w' := (Execute morning sunny 4 alertWorkflow 0 (mkWorld [hotDay; johnDoe] 0)).2 in
  env_at w' 0 !! "city" = Some (VString "Sydney")
  ∧ env_at w' 0 !! "conditionMet" = Some (VBool true)
  ∧ heap w' !! 1 = Some johnDoe.
Proof.
  destruct (Execute_writes_two_keys morning sunny 4 alertWorkflow 0
              (mkWorld [hotDay; johnDoe] 0)) as [Hkeys Hmaps].
  split; [|split].
  - rewrite (Hkeys "city"); [reflexivity | discriminate | discriminate].
  - reflexivity.
  - rewrite (Hmaps 1); [reflexivity | discriminate].
Defined.

(** ** The two texts of [Execute] side by side *)

Lemma mirrors_env (v1 v2 : loc) (w1 w2 : World) :
  mirrors v1 v2 w1 w2 → env_at w1 v1 = env_at w2 v2.
Proof. intros [Hh _]. unfold env_at. by rewrite Hh. Qed.

Lemma mirrored_ret {A : Type} (v1 v2 : loc) (a : A) :
  mirrored v1 v2 (mret a) (mret a).
Proof. intros w1 w2 Hw. done. Qed.

Lemma mirrored_bind {A B : Type} (v1 v2 : loc) (c1 c2 : M A) (k1 k2 : A → M B) :
  mirrored v1 v2 c1 c2 →
  (∀ a, mirrored v1 v2 (k1 a) (k2 a)) →
  mirrored v1 v2 (c1 ≫= k1) (c2 ≫= k2).
Proof.
  intros Hc Hk w1 w2 Hw. unfold mbind, M_bind.
  destruct (Hc w1 w2 Hw) as [Ha Hw'].
  destruct (c1 w1) as [a w1'], (c2 w2) as [b w2']. simpl in *. subst b.
  by apply Hk.
Qed.

Lemma mirrored_map_index (v1 v2 : loc) (k : string) :
  mirrored v1 v2 (map_index v1 k) (map_index v2 k).
Proof.
  intros w1 w2 Hw. unfold map_index. simpl.
  by rewrite (mirrors_env v1 v2 w1 w2).
Qed.

Lemma mirrored_map_lookup (v1 v2 : loc) (k : string) :
  mirrored v1 v2 (map_lookup v1 k) (map_lookup v2 k).
Proof.
  intros w1 w2 Hw. unfold map_lookup. simpl.
  by rewrite (mirrors_env v1 v2 w1 w2).
Qed.

Lemma mirrored_map_snapshot (v1 v2 : loc) :
  mirrored v1 v2 (map_snapshot v1) (map_snapshot v2).
Proof.
  intros w1 w2 Hw. unfold map_snapshot. simpl.
  by rewrite (mirrors_env v1 v2 w1 w2).
Qed.

Lemma mirrored_map_assign (v1 v2 : loc) (k : string) (v : Value) :
  mirrored v1 v2 (map_assign v1 k v) (map_assign v2 k v).
Proof.
  intros w1 w2 [Hh Ht]. unfold map_assign, mirrors. simpl.
  by rewrite !list_lookup_alter_eq, Hh.
Qed.

Lemma mirrored_time_Now (now : nat → Time) (v1 v2 : loc) :
  mirrored v1 v2 (time_Now now) (time_Now now).
Proof.
  intros w1 w2 [Hh Ht]. unfold time_Now, mirrors. simpl. by rewrite Hh, Ht.
Qed.

Create HintDb mirror.

#[local] Hint Resolve mirrored_ret mirrored_map_index mirrored_map_lookup
  mirrored_map_snapshot mirrored_map_assign mirrored_time_Now : mirror.

Ltac mirror :=
  repeat first
    [ progress eauto with mirror
    | apply mirrored_bind; [|intros ?]
    | match goal with
      | |- mirrored _ _ (match ?x with _ => _ end) _ => destruct x
      | |- mirrored _ _ (let '(_, _) := ?x in _) _ => destruct x
      end ].

Lemma mirrored_copyInputFields (fields : list Value) (v1 v2 : loc) :
  ∀ output,
    mirrored v1 v2 (copyInputFields fields v1 output)
                   (copyInputFields fields v2 output).
Proof. induction fields as [|field fields IH]; intros output; simpl; mirror. Qed.

#[local] Hint Resolve mirrored_copyInputFields : mirror.

Lemma mirrored_dispatch (now : nat → Time)
    (fetchWeather : float → float → float + string) (current : Node.t)
    (v1 v2 : loc) (step : ExecutionStep.t) (status : string) :
  mirrored v1 v2 (dispatch now fetchWeather current v1 step status)
                 (dispatch now fetchWeather current v2 step status).
Proof.
  unfold dispatch, processFormNode, processIntegrationNode,
    processConditionNode, processEmailNode. cbn zeta. mirror.
Qed.

Lemma mirrored_loopBody (now : nat → Time)
    (fetchWeather : float → float → float + string) (wf : Workflow.t)
    (nodeMap : gmap string Node.t) (v1 v2 : loc) (current : Node.t)
    (status : string) (steps : list ExecutionStep.t) :
  mirrored v1 v2 (loopBody now fetchWeather wf nodeMap v1 current status steps)
                 (loopBody now fetchWeather wf nodeMap v2 current status steps).
Proof.
  unfold loopBody, respond.
  apply mirrored_bind; [apply mirrored_dispatch|]. intros [step status']. mirror.
Qed.

Lemma mirrored_walk (now : nat → Time)
    (fetchWeather : float → float → float + string) (wf : Workflow.t)
    (nodeMap : gmap string Node.t) (v1 v2 : loc) (fuel : nat) :
  ∀ current status steps,
    mirrored v1 v2 (walk now fetchWeather fuel wf nodeMap v1 current status steps)
                   (walk now fetchWeather fuel wf nodeMap v2 current status steps).
Proof.
  induction fuel as [|fuel IH]; intros current status steps; simpl.
  - mirror.
  - apply mirrored_bind; [apply mirrored_loopBody|].
    intros [r|status' steps'|nextNode status' steps']; unfold respond; mirror.
Qed.

Lemma mirrored_run (now : nat → Time)
    (fetchWeather : float → float → float + string) (fuel : nat)
    (wf : Workflow.t) (v1 v2 : loc) :
  mirrored v1 v2 (run now fetchWeather fuel wf v1) (run now fetchWeather fuel wf v2).
Proof.
  unfold run. cbn zeta. destruct (findNodeByType _ "start") as [start|].
  - apply mirrored_walk.
  - mirror.
Qed.

Lemma copyEntries_loop_ticks (vars : loc) (entries : list (string * Value)) :
  ∀ w, ticks (foldr (λ kv rest, map_assign vars kv.1 kv.2;; rest) (mret tt)
                entries w).2 = ticks w.
Proof.
  induction entries as [|kv entries IH]; intros w; simpl; [done|].
  unfold mbind at 1, M_bind at 1. unfold map_assign at 1. by rewrite IH.
Qed.

(** After [make] and the copying loop the new map mirrors the map of the
    caller. *)
Lemma copyEntries_mirrors (inputs : loc) (w : World) :
  inputs < length (heap w) →
  mirrors (length (heap w)) inputs
    (copyEntries inputs (length (heap w)) (make_map w).2).2 w.
Proof.
  intros Hlt. destruct (lookup_lt_is_Some_2 (heap w) inputs Hlt) as [env Henv].
  unfold copyEntries. unfold mbind at 1, M_bind at 1. unfold map_snapshot.
  split.
  - rewrite (copyEntries_loop_run _ _ _ ∅).
    + rewrite foldl_insert_union by apply NoDup_fst_map_to_list.
      rewrite list_to_map_to_list, (right_id_L ∅ (∪)).
      unfold env_at, make_map. simpl. rewrite lookup_app_l by done.
      by rewrite Henv.
    + unfold make_map. simpl. rewrite lookup_app_r by done.
      by rewrite Nat.sub_diag.
  - by rewrite copyEntries_loop_ticks.
Qed.

(** X9. The two texts of [Execute] return the same response: for a map of
    the caller that exists, the text that copies [inputs] first and the
    text that works on [inputs] itself give, for every graph, weather and
    clock, responses equal in every field, the timestamp included; both
    run out of fuel together. The environment the copying text ends with
    is the one the other text leaves in the map of the caller. *)
Theorem ExecuteCopy_same_response (now : nat → Time)
    (fetchWeather : float → float → float + string) (fuel : nat)
    (wf : Workflow.t) (inputs : loc) (w : World) :
  inputs < length (heap w) →
  (ExecuteCopy now fetchWeather fuel wf inputs w).1
  = (Execute now fetchWeather fuel wf inputs w).1
  ∧ env_at (ExecuteCopy now fetchWeather fuel wf inputs w).2 (length (heap w))
    = env_at (Execute now fetchWeather fuel wf inputs w).2 inputs.
Proof.
  intros Hlt. rewrite ExecuteCopy_run. unfold Execute.
  destruct (mirrored_run now fetchWeather fuel wf (length (heap w)) inputs
              _ _ (copyEntries_mirrors inputs w Hlt)) as [Hr Hw].
  split; [done|]. by apply mirrors_env.
Qed.

Lemma ExecuteCopy_same_response_witness :
  (ExecuteCopy morning sunny 4 alertWorkflow 0 (mkWorld [hotDay] 0)).1
  = (Execute morning sunny 4 alertWorkflow 0 (mkWorld [hotDay] 0)).1
  ∧ env_at (ExecuteCopy morning sunny 4 alertWorkflow 0 (mkWorld [hotDay] 0)).2 1
    = env_at (Execute morning sunny 4 alertWorkflow 0 (mkWorld [hotDay] 0)).2 0.
Proof.
  apply (ExecuteCopy_same_response morning sunny 4 alertWorkflow 0
           (mkWorld [hotDay] 0)).
  simpl. lia.
Defined.

(** X10. The text of [Execute] that copies [inputs] changes no map that
    existed before the call, the map of the caller among them, whatever the
    graph does and whether or not the call returns within the fuel. *)
Theorem ExecuteCopy_changes_no_map (now : nat → Time)
    (fetchWeather : float → float → float + string) (fuel : nat)
    (wf : Workflow.t) (inputs : loc) (w : World) (m : loc) :
  m < length (heap w) →
  heap (ExecuteCopy now fetchWeather fuel wf inputs w).2 !! m = heap w !! m.
Proof.
  intros Hlt. rewrite ExecuteCopy_run.
  rewrite writesOnly_run by lia. rewrite writesOnly_copyEntries by lia.
  unfold make_map. simpl. by rewrite lookup_app_l.
Qed.

Lemma ExecuteCopy_changes_no_map_witness :
  heap (ExecuteCopy morning sunny 4 alertWorkflow 0 (mkWorld [hotDay] 0)).2 !! 0
  = Some hotDay.
Proof.
  apply (ExecuteCopy_changes_no_map morning sunny 4 alertWorkflow 0
           (mkWorld [hotDay] 0) 0).
  simpl. lia.
Defined.

(** ** A condition node and its branches *)





(** ** Graphs without a cycle *)

Lemma tracesPath_rank (wf : Workflow.t) (rank : string → nat)
    (steps : list ExecutionStep.t) :
  decreasing rank wf →
  ∀ n, tracesPath wf n steps →
       Forall (λ s, (rank (ExecutionStep.NodeID s) ≤ rank (Node.ID n))%nat) steps
       ∧ NoDup (ExecutionStep.NodeID <$> steps)
       ∧ (length steps ≤ S (rank (Node.ID n)))%nat.
Proof.
  intros Hrank. induction steps as [|s rest IH]; intros n Hpath; [done|].
  simpl in Hpath. destruct Hpath as ((Hid & _) & _ & Hrest).
  destruct Hrest as [->|(n' & (e & He & Hs & Ht) & Hpath)].
  - split; [|split].
    + constructor; [by rewrite Hid | done].
    + simpl. apply NoDup_singleton.
    + simpl. lia.
  - destruct (IH n' Hpath) as (Hle & Hnd & Hlen).
    specialize (Hrank e He). rewrite Hs, Ht in Hrank.
    split; [|split].
    + constructor; [by rewrite Hid|].
      eapply Forall_impl; [exact Hle|]. simpl. intros; lia.
    + rewrite fmap_cons. apply NoDup_cons. split; [|done].
      intros Hin. apply list_elem_of_fmap in Hin as (s' & Heq & Hs').
      rewrite Forall_forall in Hle. specialize (Hle s' Hs').
      rewrite <- Heq, Hid in Hle. lia.
    + simpl. lia.
Qed.

(** X12. On a graph whose edges decrease a rank, no node is visited twice:
    the node ids of the trace are pairwise distinct, and the trace has at
    most one step more than the rank of the start node. *)
Theorem Execute_acyclic_no_revisit (now : nat → Time)
    (fetchWeather : float → float → float + string) (fuel : nat)
    (wf : Workflow.t) (inputs : loc) (w : World) (rank : string → nat)
    (start : Node.t) (r : ExecutionResponse.t) (w' : World) :
  decreasing rank wf →
  findNodeByType (WorkflowGraph.Nodes (Workflow.Definition_ wf)) "start"
    = Some start →
  Execute now fetchWeather fuel wf inputs w = (Some r, w') →
  NoDup (ExecutionStep.NodeID <$> ExecutionResponse.Steps r)
  ∧ (length (ExecutionResponse.Steps r) ≤ S (rank (Node.ID start)))%nat.
Proof.
  intros Hrank Hstart Hrun. unfold Execute, run in Hrun. rewrite Hstart in Hrun.
  apply findNodeByType_elem in Hstart as [Hin _].
  destruct (walk_path _ _ _ _ _ _ _ _ _ _ _ Hin Hrun) as (added & -> & Hpath).
  by destruct (tracesPath_rank wf rank added Hrank start Hpath) as (_ & ? & ?).
Qed.

Lemma Execute_acyclic_no_revisit_witness :
  ∃ r w',
    Execute morning sunny 9 alertWorkflow 0 (mkWorld [hotDay] 0) = (Some r, w')
    ∧ NoDup (ExecutionStep.NodeID <$> ExecutionResponse.Steps r)
    ∧ (length (ExecutionResponse.Steps r) ≤ 4)%nat.
Proof.
  destruct (Execute morning sunny 9 alertWorkflow 0 (mkWorld [hotDay] 0))
    as [[r|] w'] eqn:Hrun.
  - exists r, w'. split; [reflexivity|].
    exact (Execute_acyclic_no_revisit morning sunny 9 alertWorkflow 0
             (mkWorld [hotDay] 0) alertRank startNode r w'
             alertRank_decreasing eq_refl Hrun).
  - vm_compute in Hrun. discriminate Hrun.
Defined.

(** ** The handler and the map it makes *)

Lemma assign_loop_world (vars : loc) (entries : list (string * Value)) :
  ∀ w,
    (foldr (λ kv rest, map_assign vars kv.1 kv.2;; rest) (mret tt) entries w).2
    = mkWorld (alter (λ e, foldl (λ acc kv, <[kv.1 := kv.2]> acc) e entries)
                 vars (heap w)) (ticks w).
Proof.
  induction entries as [|kv entries IH]; intros w; simpl.
  - rewrite list_alter_id by done. by destruct w.
  - unfold mbind at 1, M_bind at 1. unfold map_assign at 1. rewrite IH. simpl.
    by rewrite list_alter_alter_eq.
Qed.

Lemma alter_last {A : Type} (f : A → A) (l : list A) (x : A) :
  alter f (length l) (l ++ [x]) = l ++ [f x].
Proof. rewrite alter_app_r_alt by done. by rewrite Nat.sub_diag. Qed.

(** The map the handler makes and fills is a new map with the contents of
    [FormData]. *)
Lemma assignEntries_fresh (entries : gmap string Value) (w : World) :
  (assignEntries (length (heap w)) entries (make_map w).2).2
  = mkWorld (heap w ++ [entries]) (ticks w).
Proof.
  unfold assignEntries. rewrite assign_loop_world. unfold make_map. simpl.
  rewrite alter_last. rewrite foldl_insert_union by apply NoDup_fst_map_to_list.
  by rewrite list_to_map_to_list, (right_id_L ∅ (∪)).
Qed.


Lemma assign_last_run (h : list (gmap string Value)) (env : gmap string Value)
    (t : nat) (k : string) (v : Value) :
  map_assign (length h) k v (mkWorld (h ++ [env]) t)
  = (tt, mkWorld (h ++ [<[k := v]> env]) t).
Proof. unfold map_assign. simpl. by rewrite alter_last. Qed.

(** The first half of [addCondition]: the operator of the condition, when
    it is a text, replaces the one of the form data. *)
Lemma addOperator_run (condition : gmap string Value)
    (h : list (gmap string Value)) (env : gmap string Value) (t : nat) :
  ∃ env1,
    match as_string (index condition "operator") with
    | Some operator => map_assign (length h) "operator" (VString operator)
    | None => mret tt
    end (mkWorld (h ++ [env]) t) = (tt, mkWorld (h ++ [env1]) t)
    ∧ (∀ k, k ≠ "operator" → env1 !! k = env !! k)
    ∧ env1 !! "operator"
      = match condition !! "operator" with
        | Some (VString operator) => Some (VString operator)
        | _ => env !! "operator"
        end.
Proof.
  unfold index.
  destruct (condition !! "operator") as [[| | | |operator| |]|]; simpl;
    try (by exists env).
  exists (<["operator" := VString operator]> env).
  split; [apply assign_last_run|]. split.
  - intros k Hk. by rewrite lookup_insert_ne.
  - by rewrite lookup_insert_eq.
Qed.

(** What the condition of a request adds to the map of the inputs, with the
    switch of workflow.go. *)
Lemma addCondition_normalise (ParseFloat : string → option float)
    (condition : option (gmap string Value)) (h : list (gmap string Value))
    (env : gmap string Value) (t : nat) :
  ∃ env',
    addCondition (normaliseThreshold ParseFloat) condition (length h)
      (mkWorld (h ++ [env]) t)
    = (match conditionEntry condition "threshold" with
       | Some threshold =>
           match thresholdNumber ParseFloat threshold with
           | Some _ => None
           | None => Some (refusal threshold)
           end
       | None => None
       end, mkWorld (h ++ [env']) t)
    ∧ (∀ k, k ≠ "operator" → k ≠ "threshold" → env' !! k = env !! k)
    ∧ env' !! "operator"
      = match conditionEntry condition "operator" with
        | Some (VString operator) => Some (VString operator)
        | _ => env !! "operator"
        end
    ∧ env' !! "threshold"
      = match conditionEntry condition "threshold" with
        | Some threshold =>
            match thresholdNumber ParseFloat threshold with
            | Some f => Some (VFloat f)
            | None => env !! "threshold"
            end
        | None => env !! "threshold"
        end.
Proof.
  destruct condition as [condition|]; simpl; [|by exists env].
  destruct (addOperator_run condition h env t) as (env1 & Hrun & Hother & Hop).
  unfold mbind at 1, M_bind at 1. rewrite Hrun.
  assert (∀ f, ∃ env',
            (map_assign (length h) "threshold" (VFloat f);; mret None)
              (mkWorld (h ++ [env1]) t)
            = (None : option Reply, mkWorld (h ++ [env']) t)
            ∧ (∀ k, k ≠ "operator" → k ≠ "threshold" → env' !! k = env !! k)
            ∧ env' !! "operator"
              = match condition !! "operator" with
                | Some (VString operator) => Some (VString operator)
                | _ => env !! "operator"
                end
            ∧ env' !! "threshold" = Some (VFloat f)) as Hset.
  { intros f. exists (<["threshold" := VFloat f]> env1).
    unfold mbind, M_bind. rewrite assign_last_run.
    split; [done|]. split; [|split].
    - intros k Ho Ht. rewrite lookup_insert_ne by done. by apply Hother.
    - by rewrite lookup_insert_ne.
    - by rewrite lookup_insert_eq. }
  assert (∀ x : option Reply, ∃ env',
            (mret x : M (option Reply)) (mkWorld (h ++ [env1]) t)
            = (x, mkWorld (h ++ [env']) t)
            ∧ (∀ k, k ≠ "operator" → k ≠ "threshold" → env' !! k = env !! k)
            ∧ env' !! "operator"
              = match condition !! "operator" with
                | Some (VString operator) => Some (VString operator)
                | _ => env !! "operator"
                end
            ∧ env' !! "threshold" = env !! "threshold") as Hkept.
  { intros x. exists env1. split; [done|]. split; [by intros; apply Hother|].
    split; [done|]. by apply Hother. }
  destruct (condition !! "threshold") as [threshold|]; [|apply Hkept].
  destruct threshold as [| |f|z|s| |];
    cbv beta iota delta [normaliseThreshold thresholdNumber refusal];
    try apply Hkept; try apply Hset.
  destruct (ParseFloat s) as [f|]; [apply Hset | apply Hkept].
Qed.

(** The same with the plain assignment of the other text. *)
Lemma addCondition_plain (condition : option (gmap string Value))
    (h : list (gmap string Value)) (env : gmap string Value) (t : nat) :
  ∃ env',
    addCondition plainThreshold condition (length h) (mkWorld (h ++ [env]) t)
    = (None, mkWorld (h ++ [env']) t)
    ∧ (∀ k, k ≠ "operator" → k ≠ "threshold" → env' !! k = env !! k)
    ∧ env' !! "threshold"
      = match conditionEntry condition "threshold" with
        | Some threshold => Some threshold
        | None => env !! "threshold"
        end.
Proof.
  destruct condition as [condition|]; simpl; [|by exists env].
  destruct (addOperator_run condition h env t) as (env1 & Hrun & Hother & Hop).
  unfold mbind at 1, M_bind at 1. rewrite Hrun.
  destruct (condition !! "threshold") as [threshold|].
  - exists (<["threshold" := threshold]> env1).
    unfold plainThreshold, mbind, M_bind. rewrite assign_last_run.
    split; [done|]. split.
    + intros k Ho Ht. rewrite lookup_insert_ne by done. by apply Hother.
    + by rewrite lookup_insert_eq.
  - exists env1. split; [done|]. split.
    + intros k Ho _. by apply Hother.
    + by apply Hother.
Qed.

(** The handler after its three early returns. *)
Lemma handleExecute_run (now : nat → Time)
    (fetchWeather : float → float → float + string)
    (Unmarshal : string → option ExecutionRequest.t)
    (GetWorkflow : string → Workflow.t + string)
    (thresholdStep : loc → Value → M (option Reply))
    (fuel : nat) (id body : string) (execReq : ExecutionRequest.t)
    (stored : Workflow.t) (w : World) :
  Unmarshal body = Some execReq →
  GetWorkflow id = inl stored →
  let inputs := length (heap w) in
  let saved := Workflow.mk (Workflow.ID stored)
                 <$> ExecutionRequest.WorkflowDefinition execReq in
  let added :=
    addCondition thresholdStep (ExecutionRequest.Condition execReq) inputs
      (mkWorld (heap w ++ [ExecutionRequest.FormData execReq]) (ticks w)) in
  handleExecute now fetchWeather Unmarshal GetWorkflow thresholdStep fuel id
    (inl body) w
  = match added.1 with
    | Some error => (mkHandled (Some error) saved, added.2)
    | None =>
        let executed :=
          Execute now fetchWeather fuel (overridden stored execReq) inputs added.2 in
        (mkHandled (HttpOK <$> executed.1) saved, executed.2)
    end.
Proof.
  intros Hbody Hget inputs saved added. subst inputs saved added.
  unfold handleExecute, overridden. rewrite Hbody, Hget.
  destruct (ExecutionRequest.WorkflowDefinition execReq) as [definition|];
    simpl.
  all: unfold mbind at 1, M_bind at 1; unfold make_map at 1;
    unfold mbind at 1, M_bind at 1;
    pose proof (assignEntries_fresh (ExecutionRequest.FormData execReq) w) as Hfill;
    unfold make_map in Hfill; simpl in Hfill;
    destruct (assignEntries _ _ _) as [[] w1]; simpl in Hfill; subst w1;
    unfold mbind at 1, M_bind at 1;
    destruct (addCondition _ _ _ _) as [[error|] w2]; simpl; [done|];
    unfold mbind, M_bind;
    by destruct (Execute _ _ _ _ _ _) as [r w3].
Qed.

(** ** The handler in front of the executor *)



(** X14. A request whose condition has a threshold that stands for no
    number (a text that does not parse, a boolean, null, a list or a map)
    is answered with status 400, and the executor is not run: the clock is
    not read and no map that existed has changed. A definition that came
    with the request has been handed to [repo.SaveWorkflow] all the same. *)
Theorem HandleExecuteWorkflow_refuses (now : nat → Time)
    (fetchWeather : float → float → float + string)
    (ParseFloat : string → option float)
    (Unmarshal : string → option ExecutionRequest.t)
    (GetWorkflow : string → Workflow.t + string)
    (fuel : nat) (id body : string) (execReq : ExecutionRequest.t)
    (stored : Workflow.t) (w : World) (threshold : Value) :
  Unmarshal body = Some execReq →
  GetWorkflow id = inl stored →
  conditionEntry (ExecutionRequest.Condition execReq) "threshold" = Some threshold →
  thresholdNumber ParseFloat threshold = None →
  let result :=
    HandleExecuteWorkflow now fetchWeather ParseFloat Unmarshal GetWorkflow
      fuel id (inl body) w in
  result.1 = mkHandled (Some (refusal threshold))
               (Workflow.mk (Workflow.ID stored)
                  <$> ExecutionRequest.WorkflowDefinition execReq)
  ∧ ticks result.2 = ticks w
  ∧ ∀ m, m < length (heap w) → heap result.2 !! m = heap w !! m.
Proof.
  intros Hbody Hget Hentry Hnone result. subst result.
  unfold HandleExecuteWorkflow.
  rewrite (handleExecute_run _ _ _ _ _ _ _ _ execReq stored w Hbody Hget).
  cbn zeta.
  destruct (addCondition_normalise ParseFloat (ExecutionRequest.Condition execReq)
              (heap w) (ExecutionRequest.FormData execReq) (ticks w))
    as (env & Hrun & _).
  rewrite Hrun, Hentry, Hnone. simpl. split; [done|]. split; [done|].
  intros m Hm. by rewrite lookup_app_l.
Qed.

Lemma HandleExecuteWorkflow_refuses_witness :
  let result :=
    HandleExecuteWorkflow morning sunny sampleParseFloat sampleUnmarshal
      sampleGetWorkflow 3 "wf" (inl "flag") (mkWorld [hotDay] 0) in
  result.1 = mkHandled (Some (HttpError "Invalid threshold type" 400))
               (Some (overridden alertWorkflow (sampleRequest (VBool true))))
  ∧ ticks result.2 = 0
  ∧ ∀ m, m < 1 → heap result.2 !! m = [hotDay] !! m.
Proof.
  apply (HandleExecuteWorkflow_refuses morning sunny sampleParseFloat
           sampleUnmarshal sampleGetWorkflow 3 "wf" "flag"
           (sampleRequest (VBool true)) alertWorkflow (mkWorld [hotDay] 0)
           (VBool true)); reflexivity.
Defined.

Lemma iterates_keeps_key (now : nat → Time)
    (fetchWeather : float → float → float + string) (wf : Workflow.t)
    (vars : loc) (k : string) (a b : LoopState) :
  k ≠ "temperature" → k ≠ "conditionMet" →
  rtc (iterates now fetchWeather wf vars) a b →
  env_at (atWorld b) vars !! k = env_at (atWorld a) vars !! k.
Proof.
  intros Ht Hc. induction 1 as [|a b c Hab _ IH]; [done|].
  rewrite IH. unfold iterates in Hab.
  pose proof (keepsKey_loopBody now fetchWeather wf
                (buildNodeMap (WorkflowGraph.Nodes (Workflow.Definition_ wf)))
                vars (atNode a) (atStatus a) (atSteps a) k Ht Hc (atWorld a)) as Hk.
  by rewrite Hab in Hk.
Qed.



(** X16. The other text of the handler stores the threshold of the
    condition as it came and refuses none. A threshold that is a text,
    "25" say, then stays a text wherever the walk gets to, and the
    condition behaviour fails on it with "threshold not found in
    variables" as soon as [temperature] is a number. *)
Theorem HandleExecuteWorkflowPlain_text_threshold (now : nat → Time)
    (fetchWeather : float → float → float + string)
    (Unmarshal : string → option ExecutionRequest.t)
    (GetWorkflow : string → Workflow.t + string)
    (fuel : nat) (id body : string) (execReq : ExecutionRequest.t)
    (stored : Workflow.t) (w : World) (text : string) :
  Unmarshal body = Some execReq →
  GetWorkflow id = inl stored →
  conditionEntry (ExecutionRequest.Condition execReq) "threshold"
    = Some (VString text) →
  ∃ env,
    let inputs := length (heap w) in
    let w1 := mkWorld (heap w ++ [env]) (ticks w) in
    let workflow := overridden stored execReq in
    (HandleExecuteWorkflowPlain now fetchWeather Unmarshal GetWorkflow
       fuel id (inl body) w).1.(reply)
    = HttpOK <$> (Execute now fetchWeather fuel workflow inputs w1).1
    ∧ (∀ k, k ≠ "operator" → k ≠ "threshold" →
            env !! k = ExecutionRequest.FormData execReq !! k)
    ∧ ∀ start here step,
        rtc (iterates now fetchWeather workflow inputs)
            (mkLoopState start "completed" [] w1) here →
        isNumber (env_at (atWorld here) inputs !! "temperature") →
        (processConditionNode inputs step (atWorld here)).1.2
        = Some "threshold not found in variables".
Proof.
  intros Hbody Hget Hentry.
  unfold HandleExecuteWorkflowPlain.
  rewrite (handleExecute_run _ _ _ _ _ _ _ _ execReq stored w Hbody Hget).
  cbn zeta.
  destruct (addCondition_plain (ExecutionRequest.Condition execReq)
              (heap w) (ExecutionRequest.FormData execReq) (ticks w))
    as (env & Hrun & Hother & Hthr).
  rewrite Hrun, Hentry in *. exists env. simpl. split; [done|].
  split; [done|].
  intros start here step Hreach [t Htemp].
  apply (iterates_keeps_key _ _ _ _ "threshold") in Hreach; [|done..].
  simpl in Hreach. unfold env_at at 2 in Hreach. simpl in Hreach.
  rewrite lookup_app_r, Nat.sub_diag in Hreach by done. simpl in Hreach.
  rewrite Hthr in Hreach.
  rewrite processConditionNode_run. cbn zeta. rewrite Hreach.
  apply as_float64_index in Htemp. by rewrite Htemp.
Qed.

Lemma HandleExecuteWorkflowPlain_text_threshold_witness :
  ∃ env,
    let w1 := mkWorld [env] 0 in
    let workflow := overridden alertWorkflow (sampleRequest (VString "25")) in
    (HandleExecuteWorkflowPlain morning sunny sampleUnmarshal sampleGetWorkflow
       3 "wf" (inl "text") (mkWorld [] 0)).1.(reply)
    = HttpOK <$> (Execute morning sunny 3 workflow 0 w1).1
    ∧ env !! "temperature" = Some (VFloat 30)
    ∧ (processConditionNode 0 blankStep w1).1.2
      = Some "threshold not found in variables".
Proof.
  destruct (HandleExecuteWorkflowPlain_text_threshold morning sunny
              sampleUnmarshal sampleGetWorkflow 3 "wf" "text"
              (sampleRequest (VString "25")) alertWorkflow (mkWorld [] 0) "25"
              eq_refl eq_refl eq_refl) as (env & Hrun & Hother & Hreach).
  exists env. split; [exact Hrun|].
  assert (env !! "temperature" = Some (VFloat 30)) as Htemp
    by (by rewrite Hother).
  split; [exact Htemp|].
  apply (Hreach startNode (mkLoopState startNode "completed" [] (mkWorld [env] 0))
           blankStep (rtc_refl _ _)).
  exists 30%float. exact Htemp.
Defined.

(** ** The validation helper and the executor *)

Lemma validate_flags (nodes : list Node.t) :
  ∀ flags : bool * bool,
    foldl (λ (flags : bool * bool) (node : Node.t),
             (if String.eqb (Node.Type_ node) "start" then true else flags.1,
              if String.eqb (Node.Type_ node) "end" then true else flags.2))
      flags nodes
    = (flags.1 || bool_decide (is_Some (findNodeByType nodes "start")),
       flags.2 || bool_decide (is_Some (findNodeByType nodes "end"))).
Proof.
  induction nodes as [|n nodes IH]; intros [hasStart hasEnd]; simpl.
  - by rewrite !orb_false_r.
  - rewrite IH. simpl.
    destruct (String.eqb (Node.Type_ n) "start"),
             (String.eqb (Node.Type_ n) "end"); simpl;
      rewrite ?(bool_decide_eq_true_2 (is_Some (Some n))) by done;
      by rewrite ?orb_true_r.
Qed.

Lemma findNodeByType_is_Some (nodes : list Node.t) (t : string) :
  is_Some (findNodeByType nodes t) ↔ ∃ n, n ∈ nodes ∧ Node.Type_ n = t.
Proof.
  split.
  - intros [n Hn]. exists n. by apply findNodeByType_elem.
  - intros (n & Hin & Ht).
    destruct (findNodeByType nodes t) eqn:Hnone; [done|].
    rewrite findNodeByType_None in Hnone. by destruct (Hnone n Hin).
Qed.

(** X17. [validateWorkflow] accepts a workflow exactly when its graph has a
    node of type "start" and a node of type "end"; no workflow at all and a
    graph without nodes are refused. Order, number and the other types of
    the nodes play no part, and neither do the edges. *)
Theorem validateWorkflow_spec (workflow : option Workflow.t) :
  validateWorkflow workflow = true
  ↔ ∃ wf, workflow = Some wf
          ∧ (∃ n, n ∈ WorkflowGraph.Nodes (Workflow.Definition_ wf)
                  ∧ Node.Type_ n = "start")
          ∧ (∃ n, n ∈ WorkflowGraph.Nodes (Workflow.Definition_ wf)
                  ∧ Node.Type_ n = "end").
Proof.
  destruct workflow as [wf|]; simpl.
  - rewrite validate_flags. simpl.
    rewrite andb_true_iff, !bool_decide_eq_true, !findNodeByType_is_Some.
    split.
    + intros [Hs He]. by exists wf.
    + by intros (? & [= <-] & Hs & He).
  - split; [done|]. by intros (? & ? & _).
Qed.

Lemma dispatch_start (now : nat → Time)
    (fetchWeather : float → float → float + string) (current : Node.t)
    (vars : loc) (step : ExecutionStep.t) (status : string) (w : World) :
  Node.Type_ current = "start" →
  dispatch now fetchWeather current vars step status w = ((step, status), w).
Proof. intros Htype. unfold dispatch. cbn zeta. by rewrite Htype. Qed.

Lemma loopBody_start (now : nat → Time)
    (fetchWeather : float → float → float + string) (wf : Workflow.t)
    (nodeMap : gmap string Node.t) (vars : loc) (current : Node.t)
    (status : string) (steps : list ExecutionStep.t) (w : World) :
  Node.Type_ current = "start" →
  match (loopBody now fetchWeather wf nodeMap vars current status steps w).1 with
  | Return _ => False
  | Break _ steps' | Next _ _ steps' => steps' = steps ++ [newStep current]
  end.
Proof.
  intros Htype. unfold loopBody. unfold mbind at 1, M_bind at 1.
  rewrite dispatch_start by done.
  change (String.eqb (ExecutionStep.Status (newStep current)) "failed")
    with false. cbn iota.
  unfold mbind, M_bind, map_snapshot, mret, M_ret. cbn [fst snd].
  destruct (String.eqb _ ""); [done|].
  by destruct (nodeMap !! _).
Qed.

Lemma walk_grows (now : nat → Time)
    (fetchWeather : float → float → float + string) (wf : Workflow.t)
    (nodeMap : gmap string Node.t) (vars : loc) (fuel : nat) :
  ∀ current status steps w r w',
    walk now fetchWeather fuel wf nodeMap vars current status steps w
      = (Some r, w') →
    ∃ added, ExecutionResponse.Steps r = steps ++ added.
Proof.
  induction fuel as [|fuel IH]; intros current status steps w r w' Hwalk;
    [discriminate|].
  simpl in Hwalk. unfold mbind at 1, M_bind at 1 in Hwalk.
  destruct (loopBody_cases now fetchWeather wf nodeMap vars current
              status steps w) as [step Hcase].
  destruct (loopBody _ _ _ _ _ _ _ _ w)
    as [[r0 | status' steps' | nextNode status' steps'] w1]; simpl in Hcase.
  - destruct Hcase as (_ & _ & Hs). injection Hwalk as <- _. eauto.
  - destruct Hcase as (_ & _ & ->). unfold respond in Hwalk. unfold_M.
    injection Hwalk as <- _. eauto.
  - destruct Hcase as (_ & _ & -> & _).
    destruct (IH _ _ _ _ _ _ Hwalk) as [added ->].
    exists (step :: added). by rewrite <- app_assoc.
Qed.

(** X18. A workflow that [validateWorkflow] accepts is never answered with
    the step "No start node found in workflow": whatever the inputs, the
    trace of a response of [Execute] begins with the completed step of the
    first node of type "start", without output and without error. *)
Theorem validateWorkflow_Execute_starts (now : nat → Time)
    (fetchWeather : float → float → float + string) (fuel : nat)
    (wf : Workflow.t) (inputs : loc) (w : World)
    (r : ExecutionResponse.t) (w' : World) :
  validateWorkflow (Some wf) = true →
  Execute now fetchWeather fuel wf inputs w = (Some r, w') →
  ∃ start rest,
    findNodeByType (WorkflowGraph.Nodes (Workflow.Definition_ wf)) "start"
      = Some start
    ∧ Node.Type_ start = "start"
    ∧ ExecutionResponse.Steps r = newStep start :: rest
    ∧ ExecutionResponse.Steps r ≠ [noStartStep].
Proof.
  intros Hvalid Hrun. simpl in Hvalid. rewrite validate_flags in Hvalid.
  simpl in Hvalid. apply andb_true_iff in Hvalid as [Hstart _].
  apply bool_decide_eq_true in Hstart as [start Hstart].
  pose proof (findNodeByType_elem _ _ _ Hstart) as [_ Htype].
  assert (∃ rest, ExecutionResponse.Steps r = newStep start :: rest)
    as [rest Hsteps].
  { unfold Execute, run in Hrun. rewrite Hstart in Hrun.
    destruct fuel as [|fuel]; [discriminate|].
    simpl in Hrun. unfold mbind at 1, M_bind at 1 in Hrun.
    pose proof (loopBody_start now fetchWeather wf
                  (buildNodeMap (WorkflowGraph.Nodes (Workflow.Definition_ wf)))
                  inputs start "completed" [] w Htype) as Hbody.
    destruct (loopBody _ _ _ _ _ _ _ _ w)
      as [[r0 | status' steps' | nextNode status' steps'] w1]; simpl in Hbody.
    - done.
    - subst steps'. unfold respond in Hrun. unfold_M.
      injection Hrun as <- _. by exists [].
    - subst steps'. destruct (walk_grows _ _ _ _ _ _ _ _ _ _ _ _ Hrun)
        as [added ->]. by exists added. }
  exists start, rest. split; [done|]. split; [done|]. split; [done|].
  rewrite Hsteps. intros Heq. inversion Heq.
Qed.

Lemma validateWorkflow_Execute_starts_witness :
  ∃ r w' rest,
    Execute morning sunny 4 alertWorkflow 0 (mkWorld [hotDay] 0) = (Some r, w')
    ∧ ExecutionResponse.Steps r = newStep startNode :: rest
    ∧ ExecutionResponse.Steps r ≠ [noStartStep].
Proof.
  destruct (Execute morning sunny 4 alertWorkflow 0 (mkWorld [hotDay] 0))
    as [[r|] w'] eqn:Hrun.
  - destruct (validateWorkflow_Execute_starts morning sunny 4 alertWorkflow 0
                (mkWorld [hotDay] 0) r w' eq_refl Hrun)
      as (start & rest & Hstart & _ & Hsteps & Hno).
    injection Hstart as <-. by exists r, w', rest.
  - vm_compute in Hrun. discriminate Hrun.
Defined.


